(** * Move-generation kernel of the chess engine: bitboard generators

    Shallow embedding of [src/game_piece_moves.cpp] (namespace [abra]) and
    the properties of its seven generators.

    Conventions of the embedding:
    - [square] is the C++ [int]; every value that occurs stays far below
      the 32-bit limits, so it is an unbounded [Z] without wrap-around;
    - [bitboard] is the C++ 64-bit unsigned mask, a [Z] whose bits 0..63
      are the squares; operations that can leave 64 bits ([<<=], [~]) are
      written out with their truncation;
    - a C++ expression with undefined behaviour (a shift by a bit index
      outside 0..63, an array index outside the array) has no result:
      every operation lives in the [option] monad and yields [None] there. *)

From Stdlib Require Import ZArith List Bool Lia.
Import ListNotations.
Local Open Scope Z_scope.

(** ** A small error monad *)

Definition bind {A B : Type} (x : option A) (k : A -> option B) : option B :=
  match x with
  | Some a => k a
  | None => None
  end.

Notation "x <- e ;; k" := (bind e (fun x => k))
  (at level 61, e at next level, right associativity).

Definition lift2 {A : Type} (f : A -> A -> A) (x y : option A) : option A :=
  a <- x ;; b <- y ;; Some (f a b).

(** Monadic left fold: the shape of every [for] loop of the source. *)
Fixpoint foldM {A S : Type} (body : S -> A -> option S) (l : list A) (st : S)
  : option S :=
  match l with
  | [] => Some st
  | x :: l' => st' <- body st x ;; foldM body l' st'
  end.

(** ** Data model *)

Definition square := Z.
Definition bitboard := Z.

Definition is_bitboard (b : bitboard) : Prop := 0 <= b < 2 ^ 64.

Module color.
Inductive t : Set := white | black.
Definition eqb (a b : t) : bool :=
  match a, b with
  | white, white | black, black => true
  | _, _ => false
  end.
End color.

(** Modelled from the spec: the board occupancy declared in [game.h], two
    bitboards, one per colour. *)
Record board_state : Type := { black : bitboard; white : bitboard }.

(** Modelled from the spec: the part of [class game] of [game.h] that the
    generators read: the occupancy snapshot and the en-passant target, "a
    single optional square ... equality comparison only". *)
Record game : Type := { board : board_state; en_passant : option square }.

(** [sq == en_passant] *)
Definition is_en_passant (g : game) (sq : square) : bool :=
  match en_passant g with
  | Some e => sq =? e
  | None => false
  end.

(** ** Primitives of [movement.h] *)

(** Modelled from the spec: the four step constants of [movement.h]; "up"
    is toward decreasing row index, "left" toward column 0. *)
Definition up : square := -8.
Definition down : square := 8.
Definition left : square := -1.
Definition right : square := 1.

(** Modelled from the spec: [get_row] of [movement.h], [row(s) = s / 8],
    with the C++ division that truncates toward zero. *)
Definition get_row (s : square) : square := Z.quot s 8.

(** Modelled from the spec: [get_col] of [movement.h], [col(s) = s % 8]. *)
Definition get_col (s : square) : square := Z.rem s 8.

Definition in_board (s : square) : bool := (0 <=? s) && (s <? 64).

(** Modelled from the spec: [test_bit] of [movement.h], "returns whether
    bit s is set"; undefined for a square index outside 0..63.  The square
    [s] is taken as bit [s] from the least significant end; the generators
    that do not shift a mask give the same squares under any numbering, and
    [get_pawn_attacks], which shifts, is also modelled under the other one
    ([bit_order] below). *)
Definition test_bit (b : bitboard) (s : square) : option bool :=
  if in_board s then Some (Z.testbit b s) else None.

(** Modelled from the spec: [set_bit] of [movement.h], "sets bit s in
    place"; undefined for a square index outside 0..63.  The updated mask is
    returned.  Same numbering as [test_bit]. *)
Definition set_bit (b : bitboard) (s : square) : option bitboard :=
  if in_board s then Some (Z.lor b (Z.shiftl 1 s)) else None.

(** Modelled from the spec: [get_pawn_direction] of [movement.h]; white
    advances toward decreasing row index, black toward increasing. *)
Definition get_pawn_direction (c : color.t) : square :=
  match c with
  | color.white => up
  | color.black => down
  end.

(** 64-bit complement [~x]. *)
Definition bnot64 (x : bitboard) : bitboard := Z.land (Z.lnot x) (Z.ones 64).

(** 64-bit left shift [x << n]: the bits pushed past bit 63 are lost. *)
Definition shl64 (x : bitboard) (n : Z) : bitboard :=
  Z.land (Z.shiftl x n) (Z.ones 64).

(** The mask with the single square [s]. *)
Definition bit (s : square) : bitboard := Z.shiftl 1 s.

(** The squares in the order of [for (square s = 0; s < 64; s++)]. *)
Definition squares : list square := map Z.of_nat (seq 0 64).

(** ** Offset tables *)

Definition is_valid_dimension (i : square) : bool := (0 <=? i) && (i <? 8).

Definition get_offset_components (off : square) : Z * Z :=
  let x := 36 in
  let y := x + off in
  (get_row y - get_row x, get_col y - get_col x).

(** [std::array<bitboard, 64>] as a list of 64 masks; [a[s]] outside the
    array is undefined. *)
Definition array_get (a : list bitboard) (s : square) : option bitboard :=
  if in_board s then nth_error a (Z.to_nat s) else None.

Fixpoint list_set (a : list bitboard) (n : nat) (v : bitboard) : list bitboard :=
  match a, n with
  | [], _ => []
  | _ :: a', O => v :: a'
  | x :: a', S n' => x :: list_set a' n' v
  end.

Definition array_set (a : list bitboard) (s : square) (v : bitboard)
  : option (list bitboard) :=
  if in_board s && (Z.to_nat s <? length a)%nat
  then Some (list_set a (Z.to_nat s) v) else None.

(** Inner loop of [make_jump_table]: one offset applied to [moves[s]]. *)
Definition jump_step (s r c : square) (moves : list bitboard) (x : square)
  : option (list bitboard) :=
  let '(dr, dc) := get_offset_components x in
  let i := r + dr in
  let j := c + dc in
  if negb (is_valid_dimension i) || negb (is_valid_dimension j) then Some moves
  else
    old <- array_get moves s ;;
    new <- set_bit old (8 * i + j) ;;
    array_set moves s new.

Definition make_jump_table (offsets : list square) : option (list bitboard) :=
  foldM (fun moves s =>
           let r := get_row s in
           let c := get_col s in
           foldM (jump_step s r c) offsets moves)
        squares (repeat 0 64%nat).

(** ** Pawns *)

(** The lambda [add_capture] of [get_pawn_moves]; its captured variables
    are explicit arguments. *)
Definition add_capture (g : game) (vacant : bitboard) (s col pawn_dir : square)
  (moves : bitboard) (dir : square) : option bitboard :=
  let edge := if dir =? left then 0 else 7 in
  if col =? edge then Some moves
  else
    let sq := s + pawn_dir + dir in
    v <- test_bit vacant sq ;;
    if negb v || is_en_passant g sq then set_bit moves sq else Some moves.

(** Body of the loop of [get_pawn_moves] for a square [s] of the mask: the
    statements after the [continue]. *)
Definition pawn_from (g : game) (vacant : bitboard) (pawn_dir start_row : square)
  (moves : bitboard) (s : square) : option bitboard :=
  let row := get_row s in
  let col := get_col s in
  let t := s + pawn_dir in
  v <- test_bit vacant t ;;
  moves <- (if v then
              moves <- set_bit moves t ;;
              if row =? start_row then
                let t := t + pawn_dir in
                v2 <- test_bit vacant t ;;
                if v2 then set_bit moves t else Some moves
              else Some moves
            else Some moves) ;;
  moves <- add_capture g vacant s col pawn_dir moves left ;;
  add_capture g vacant s col pawn_dir moves right.

(** Body of the loop of [get_pawn_moves]. *)
Definition pawn_body (g : game) (b vacant : bitboard) (pawn_dir start_row : square)
  (moves : bitboard) (s : square) : option bitboard :=
  present <- test_bit b s ;;
  if negb present then Some moves
  else pawn_from g vacant pawn_dir start_row moves s.

Definition get_pawn_moves (g : game) (b : bitboard) (c : color.t)
  : option bitboard :=
  let moves := 0 in
  let pawn_dir := get_pawn_direction c in
  let start_row := if color.eqb c color.white then 6 else 1 in
  let vacant := bnot64 (Z.lor (black (board g)) (white (board g))) in
  foldM (pawn_body g b vacant pawn_dir start_row) squares moves.

(** Body of the lookup loop shared by the three table generators:
    [if (test_bit(b, s)) moves |= table[s]]. *)
Definition table_body (table : list bitboard) (b : bitboard)
  (moves : bitboard) (s : square) : option bitboard :=
  present <- test_bit b s ;;
  if present then e <- array_get table s ;; Some (Z.lor moves e)
  else Some moves.

Definition get_pawn_attacks (g : game) (b : bitboard) (c : color.t)
  : option bitboard :=
  pawn_attacks <- make_jump_table [left; right] ;;
  let moves := 0 in
  let b := if color.eqb c color.white then shl64 b 8 else Z.shiftr b 8 in
  foldM (table_body pawn_attacks b) squares moves.

(** ** Short range pieces *)

Definition get_knight_moves (g : game) (b : bitboard) : option bitboard :=
  knight_moves <- make_jump_table
    [2 * up + left; 2 * up + right; 2 * down + left; 2 * down + right;
     up + 2 * left; down + 2 * left; up + 2 * right; down + 2 * right] ;;
  let moves := 0 in
  foldM (table_body knight_moves b) squares moves.

Definition get_king_moves (g : game) (b : bitboard) : option bitboard :=
  king_moves <- make_jump_table
    [up; down; left; right; up + left; up + right; down + left; down + right] ;;
  let moves := 0 in
  foldM (table_body king_moves b) squares moves.

(** ** Sliding pieces *)

(** The [while] loop of [get_bishop_moves] and [get_rook_moves], with a
    bound on the number of iterations: [None] when the bound is used up. *)
Fixpoint walk (fuel : nat) (occupied : bitboard) (dr dc i j : Z)
  (moves : bitboard) : option bitboard :=
  match fuel with
  | O => None
  | S fuel' =>
      if is_valid_dimension i && is_valid_dimension j then
        let sq := 8 * i + j in
        moves <- set_bit moves sq ;;
        hit <- test_bit occupied sq ;;
        if hit then Some moves
        else walk fuel' occupied dr dc (i + dr) (j + dc) moves
      else Some moves
  end.

(** A ray has at most 7 squares; the eighth test of the loop condition
    fails at the latest. *)
Definition walk_fuel : nat := 8.

(** The loop over the four directions, for a square [s] of the mask. *)
Definition slide_from (dirs : list (Z * Z)) (occupied : bitboard)
  (moves : bitboard) (s : square) : option bitboard :=
  let r := get_row s in
  let c := get_col s in
  foldM (fun moves '(dr, dc) =>
           let i := r + dr in
           let j := c + dc in
           walk walk_fuel occupied dr dc i j moves)
        dirs moves.

(** Body of the outer loop of both sliding generators. *)
Definition slide_body (dirs : list (Z * Z)) (b occupied : bitboard)
  (moves : bitboard) (s : square) : option bitboard :=
  present <- test_bit b s ;;
  if negb present then Some moves
  else slide_from dirs occupied moves s.

Definition bishop_dirs : list (Z * Z) := [(1, 1); (1, -1); (-1, 1); (-1, -1)].
Definition rook_dirs : list (Z * Z) := [(1, 0); (-1, 0); (0, 1); (0, -1)].

Definition get_bishop_moves (g : game) (b : bitboard) : option bitboard :=
  let moves := 0 in
  let occupied := Z.lor (black (board g)) (white (board g)) in
  foldM (slide_body bishop_dirs b occupied) squares moves.

Definition get_rook_moves (g : game) (b : bitboard) : option bitboard :=
  let moves := 0 in
  let occupied := Z.lor (black (board g)) (white (board g)) in
  foldM (slide_body rook_dirs b occupied) squares moves.

Definition get_queen_moves (g : game) (b : bitboard) : option bitboard :=
  bm <- get_bishop_moves g b ;;
  rm <- get_rook_moves g b ;;
  Some (Z.lor bm rm).

(** The three offset tables, built once ([const static]) and evaluated here. *)
Definition knight_offsets : list square :=
  [2 * up + left; 2 * up + right; 2 * down + left; 2 * down + right;
   up + 2 * left; down + 2 * left; up + 2 * right; down + 2 * right].

Definition king_offsets : list square :=
  [up; down; left; right; up + left; up + right; down + left; down + right].

Definition table_of (offsets : list square) : list bitboard :=
  match make_jump_table offsets with
  | Some t => t
  | None => []
  end.

Definition pawn_attacks_table : list bitboard :=
  Eval vm_compute in table_of [left; right].
Definition knight_moves_table : list bitboard :=
  Eval vm_compute in table_of knight_offsets.
Definition king_moves_table : list bitboard :=
  Eval vm_compute in table_of king_offsets.

(** A position used to run the generators on concrete inputs: white pieces
    on 27, 43 and 52, a black piece on 59, en-passant target 45. *)
Definition sample_game : game :=
  {| board := {| black := bit 59;
                 white := Z.lor (bit 27) (Z.lor (bit 43) (bit 52)) |};
     en_passant := Some 45 |}.

Definition empty_game : game :=
  {| board := {| black := 0; white := 0 |}; en_passant := None |}.

(** Number of squares of a mask. *)
Definition popcount (b : bitboard) : nat :=
  length (filter (Z.testbit b) squares).

(** * Vocabulary of the properties *)

(** A loop body is _accumulating_ when it only ORs into the mask it is
    given a contribution that does not depend on that mask. *)
Definition accumulating {A : Type} (f : bitboard -> A -> option bitboard) (l : list A)
  : Prop :=
  forall x m, In x l -> f m x = c <- f 0 x ;; Some (Z.lor m c).

(** The normal form of the loop bodies: a square [s] of the mask [b] ORs its
    own contribution [f s] into the result. *)
Definition guarded (f : square -> option bitboard) (b : bitboard)
  (moves : bitboard) (s : square) : option bitboard :=
  present <- test_bit b s ;;
  if present then c <- f s ;; Some (Z.lor moves c) else Some moves.

(** The occupancy mask the generators read. *)
Definition occupancy (g : game) : bitboard :=
  Z.lor (black (board g)) (white (board g)).

Definition start_row_of (c : color.t) : square :=
  if color.eqb c color.white then 6 else 1.

(** What one pawn on [s] adds to the result of [get_pawn_moves]. *)
Definition pawn_push (g : game) (c : color.t) (s q : square) : Prop :=
  q = s + get_pawn_direction c /\ Z.testbit (occupancy g) q = false.

Definition pawn_double_push (g : game) (c : color.t) (s q : square) : Prop :=
  q = s + 2 * get_pawn_direction c /\ get_row s = start_row_of c /\
  Z.testbit (occupancy g) (s + get_pawn_direction c) = false /\
  Z.testbit (occupancy g) q = false.

Definition capture_edge (dir : square) : square := if dir =? left then 0 else 7.

Definition pawn_capture (g : game) (c : color.t) (dir s q : square) : Prop :=
  q = s + get_pawn_direction c + dir /\ get_col s <> capture_edge dir /\
  (Z.testbit (occupancy g) q = true \/ en_passant g = Some q).

Definition pawn_reach (g : game) (c : color.t) (s q : square) : Prop :=
  pawn_push g c s q \/ pawn_double_push g c s q \/
  pawn_capture g c left s q \/ pawn_capture g c right s q.

(** The [n]-th square of the ray that leaves [s] in the direction [d], and
    what the walk along that ray needs to reach it. *)
Definition ray_square (s : square) (d : Z * Z) (n : Z) : square :=
  8 * (get_row s + n * fst d) + (get_col s + n * snd d).

Definition ray_on_board (s : square) (d : Z * Z) (n : Z) : Prop :=
  0 <= get_row s + n * fst d < 8 /\ 0 <= get_col s + n * snd d < 8.

Definition ray_visited (occ : bitboard) (s : square) (d : Z * Z) (n : Z) : Prop :=
  1 <= n /\
  (forall k, 1 <= k <= n -> ray_on_board s d k) /\
  (forall k, 1 <= k < n -> Z.testbit occ (ray_square s d k) = false).

(** A direction of a sliding piece: one step of a king. *)
Definition unit_dir (d : Z * Z) : Prop :=
  -1 <= fst d <= 1 /\ -1 <= snd d <= 1 /\ (fst d <> 0 \/ snd d <> 0).

(** A generator processes the squares of its source mask independently. *)
Definition union_homomorphism (gen : bitboard -> option bitboard) : Prop :=
  (forall a b, gen (Z.lor a b) = lift2 Z.lor (gen a) (gen b)) /\
  gen 0 = Some 0.

(** A generator has a defined result on every source mask. *)
Definition total (gen : bitboard -> option bitboard) : Prop :=
  forall b, exists m, gen b = Some m.

Definition pieces_of (g : game) (c : color.t) : bitboard :=
  match c with
  | color.white => white (board g)
  | color.black => black (board g)
  end.

Definition opposite (c : color.t) : color.t :=
  match c with
  | color.white => color.black
  | color.black => color.white
  end.

(** What the result [m] of a sliding generator shows along the ray that
    leaves the single source square [s] in the direction [d]. *)
Definition ray_truncated (occ : bitboard) (s : square) (d : Z * Z) (m : bitboard)
  : Prop :=
  forall k,
    1 <= k -> ray_on_board s d k ->
    Z.testbit occ (ray_square s d k) = true ->
    (forall n, 1 <= n < k -> Z.testbit occ (ray_square s d n) = false) ->
    forall n, 1 <= n -> ray_on_board s d n ->
              Z.testbit m (ray_square s d n) = (n <=? k).

Definition ray_open (occ : bitboard) (s : square) (d : Z * Z) (m : bitboard)
  : Prop :=
  (forall n, 1 <= n -> ray_on_board s d n ->
             Z.testbit occ (ray_square s d n) = false) ->
  forall n, 1 <= n -> ray_on_board s d n ->
            Z.testbit m (ray_square s d n) = true.

(** Equality test on results, to check a property on all 64 squares by
    evaluation. *)
Definition option_eqb (x y : option Z) : bool :=
  match x, y with
  | Some a, Some b => a =? b
  | None, None => true
  | _, _ => false
  end.

(** ** Geometry of the short range pieces *)

(** [q] is a knight's jump away from [s]: one row and two columns, or two
    rows and one column. *)
Definition knight_jumpb (s q : square) : bool :=
  let dr := Z.abs (get_row q - get_row s) in
  let dc := Z.abs (get_col q - get_col s) in
  ((dr =? 1) && (dc =? 2)) || ((dr =? 2) && (dc =? 1)).

Definition knight_jump (s q : square) : Prop :=
  0 <= q < 64 /\
  ((Z.abs (get_row q - get_row s) = 1 /\ Z.abs (get_col q - get_col s) = 2) \/
   (Z.abs (get_row q - get_row s) = 2 /\ Z.abs (get_col q - get_col s) = 1)).

(** [q] is one king's step away from [s]. *)
Definition king_stepb (s q : square) : bool :=
  negb (q =? s) &&
  (Z.abs (get_row q - get_row s) <=? 1) && (Z.abs (get_col q - get_col s) <=? 1).

Definition king_step (s q : square) : Prop :=
  0 <= q < 64 /\ q <> s /\
  Z.abs (get_row q - get_row s) <= 1 /\ Z.abs (get_col q - get_col s) <= 1.

(** [q] is the left or right neighbour of [s] on its row. *)
Definition besideb (s q : square) : bool :=
  (get_row q =? get_row s) && (Z.abs (get_col q - get_col s) =? 1).

(** The row step [get_pawn_attacks] takes for a colour under the numbering
    [lsb_first] of [test_bit]: the white mask is shifted to the next higher
    row, the black mask to the next lower one. *)
Definition attack_row_step (c : color.t) : Z :=
  match c with
  | color.white => 1
  | color.black => -1
  end.

Definition pawn_attack_from (c : color.t) (s q : square) : Prop :=
  0 <= q < 64 /\ get_row q = get_row s + attack_row_step c /\
  Z.abs (get_col q - get_col s) = 1.

(** A table holds, for every square, a 64-bit mask whose squares are those
    related to it by [rel]; checked by evaluation. *)
Definition table_matches (t : list bitboard) (rel : square -> square -> bool)
  : bool :=
  forallb (fun s =>
             match array_get t s with
             | Some e =>
                 (0 <=? e) && (e <? 2 ^ 64) &&
                 forallb (fun q => Bool.eqb (Z.testbit e q) (rel s q)) squares
             | None => false
             end) squares.

(** ** Contents of an offset table *)



(** The row a pawn of the colour cannot leave by a push. *)
Definition last_row (c : color.t) : square :=
  match c with
  | color.white => 0
  | color.black => 7
  end.

(** ** The bit numbering of the masks *)

(** Modelled from the spec: which bit of a mask holds a square is fixed by
    [test_bit] and [set_bit] of [movement.h], which is not part of the
    sources.  Only [get_pawn_attacks] shifts a mask, so only its result
    depends on that numbering; the two numberings of a row-major board are
    modelled. *)
Inductive bit_order : Set := lsb_first | msb_first.

(** Modelled from the spec: the bit of the square [s].  Section 4.4 of the
    spec ("left-shift by 8 bits for white ... forward is toward lower
    indices for white") and the comments of [get_pawn_attacks] ([b <<= 8] is
    "shift all bits up", [b >>= 8] is "shift all bits down") describe
    [msb_first]: a left shift by 8 moves every square to the row above, so
    square 0 is the most significant bit.  [test_bit] and [set_bit] above
    are the [lsb_first] instance. *)
Definition bit_of (o : bit_order) (s : square) : Z :=
  match o with
  | lsb_first => s
  | msb_first => 63 - s
  end.

(** Modelled from the spec: [test_bit] of [movement.h] under the numbering
    [o]; undefined for a square index outside 0..63. *)
Definition test_bit_at (o : bit_order) (b : bitboard) (s : square) : option bool :=
  if in_board s then Some (Z.testbit b (bit_of o s)) else None.

(** Modelled from the spec: [set_bit] of [movement.h] under the numbering
    [o]; undefined for a square index outside 0..63. *)
Definition set_bit_at (o : bit_order) (b : bitboard) (s : square)
  : option bitboard :=
  if in_board s then Some (Z.lor b (Z.shiftl 1 (bit_of o s))) else None.


(** [make_jump_table] and [get_pawn_attacks] as above, with the primitives
    of the numbering [o]. *)
Definition jump_step_at (o : bit_order) (s r c : square) (moves : list bitboard)
  (x : square) : option (list bitboard) :=
  let '(dr, dc) := get_offset_components x in
  let i := r + dr in
  let j := c + dc in
  if negb (is_valid_dimension i) || negb (is_valid_dimension j) then Some moves
  else
    old <- array_get moves s ;;
    new <- set_bit_at o old (8 * i + j) ;;
    array_set moves s new.

Definition make_jump_table_at (o : bit_order) (offsets : list square)
  : option (list bitboard) :=
  foldM (fun moves s =>
           let r := get_row s in
           let c := get_col s in
           foldM (jump_step_at o s r c) offsets moves)
        squares (repeat 0 64%nat).

Definition table_body_at (o : bit_order) (table : list bitboard) (b : bitboard)
  (moves : bitboard) (s : square) : option bitboard :=
  present <- test_bit_at o b s ;;
  if present then e <- array_get table s ;; Some (Z.lor moves e)
  else Some moves.

Definition get_pawn_attacks_at (o : bit_order) (g : game) (b : bitboard)
  (c : color.t) : option bitboard :=
  pawn_attacks <- make_jump_table_at o [left; right] ;;
  let moves := 0 in
  let b := if color.eqb c color.white then shl64 b 8 else Z.shiftr b 8 in
  foldM (table_body_at o pawn_attacks b) squares moves.





(** * Properties *)

Ltac pawn_unfold :=
  unfold pawn_reach, pawn_push, pawn_double_push, pawn_capture, capture_edge,
    left, right in *;
  cbn [Z.eqb Pos.eqb] in *.

(** ** The error monad and the loops *)

Lemma bind_Some {A B : Type} (x : option A) (k : A -> option B) (r : B) :
  bind x k = Some r -> exists a, x = Some a /\ k a = Some r.
Proof.
  destruct x as [a|]; simpl; intros H; [exists a; auto | discriminate].
Qed.

Lemma bind_ret {A B : Type} (a : A) (k : A -> option B) : bind (Some a) k = k a.
Proof. reflexivity. Qed.

Lemma Some_inj {A : Type} (a b : A) : Some a = Some b -> a = b.
Proof. now intros [= ->]. Qed.

Lemma foldM_ext {A S : Type} (f g : S -> A -> option S) (l : list A) :
  (forall x st, In x l -> f st x = g st x) ->
  forall st, foldM f l st = foldM g l st.
Proof.
  induction l as [|x l IH]; intros Hfg st; simpl; [reflexivity|].
  rewrite (Hfg x st) by (left; reflexivity).
  destruct (g st x); simpl; [|reflexivity].
  apply IH. intros y st' Hy. apply Hfg. right; exact Hy.
Qed.

Lemma foldM_total {A S : Type} (f : S -> A -> option S) (l : list A) :
  (forall x st, In x l -> exists st', f st x = Some st') ->
  forall st, exists st', foldM f l st = Some st'.
Proof.
  induction l as [|x l IH]; intros Hf st; simpl; [eauto|].
  destruct (Hf x st) as [st1 ->]; [left; reflexivity|]. simpl.
  apply IH. intros y st' Hy. apply Hf. right; exact Hy.
Qed.

Lemma foldM_acc {A : Type} (f : bitboard -> A -> option bitboard) (l : list A) :
  accumulating f l ->
  forall m, foldM f l m = c <- foldM f l 0 ;; Some (Z.lor m c).
Proof.
  induction l as [|x l IH]; intros Hacc m; simpl.
  - now rewrite Z.lor_0_r.
  - assert (Hl : accumulating f l)
      by (intros y m' Hy; apply Hacc; right; exact Hy).
    rewrite (Hacc x m) by (left; reflexivity).
    destruct (f 0 x) as [c|]; simpl; [|reflexivity].
    rewrite (IH Hl (Z.lor m c)), (IH Hl c).
    destruct (foldM f l 0) as [d|]; simpl; [|reflexivity].
    now rewrite Z.lor_assoc.
Qed.

(** Bits of the result of a loop whose body adds, for the element [x], the
    bits [q] with [P x q]. *)
Lemma foldM_bits {A : Type} (f : bitboard -> A -> option bitboard)
  (P : A -> Z -> Prop) (l : list A) :
  (forall x m m', In x l -> f m x = Some m' ->
     forall q, Z.testbit m' q = true <-> Z.testbit m q = true \/ P x q) ->
  forall m m', foldM f l m = Some m' ->
  forall q, Z.testbit m' q = true <->
            Z.testbit m q = true \/ exists x, In x l /\ P x q.
Proof.
  induction l as [|x l IH]; intros Hf m m' H q; simpl in H.
  - injection H as <-. split; [auto|]. intros [H|(x & [] & _)]; exact H.
  - apply bind_Some in H. destruct H as (m1 & H1 & H2).
    rewrite (IH (fun y a b Hy => Hf y a b (or_intror Hy)) _ _ H2 q).
    rewrite (Hf x m m1 (or_introl eq_refl) H1 q).
    split.
    + intros [[H|H]|(y & Hy & H)]; [left; exact H | right; exists x | right; exists y];
        (split; [simpl; auto | exact H]).
    + intros [H|(y & [<-|Hy] & H)]; [left; left; exact H | left; right; exact H |].
      right; exists y; auto.
Qed.

(** ** Squares and single bits *)

Lemma in_board_iff (s : square) : in_board s = true <-> 0 <= s < 64.
Proof. unfold in_board. lia. Qed.

Lemma in_squares (s : square) : In s squares <-> 0 <= s < 64.
Proof.
  unfold squares. rewrite in_map_iff. split.
  - intros (n & <- & Hn). apply in_seq in Hn. lia.
  - intros H. exists (Z.to_nat s). split; [lia|]. apply in_seq. lia.
Qed.

Lemma test_bit_in (b : bitboard) (s : square) :
  0 <= s < 64 -> test_bit b s = Some (Z.testbit b s).
Proof. intros H. unfold test_bit. now rewrite (proj2 (in_board_iff s) H). Qed.

Lemma set_bit_in (b : bitboard) (s : square) :
  0 <= s < 64 -> set_bit b s = Some (Z.lor b (bit s)).
Proof. intros H. unfold set_bit. now rewrite (proj2 (in_board_iff s) H). Qed.

Lemma test_bit_Some (b : bitboard) (s : square) (v : bool) :
  test_bit b s = Some v -> 0 <= s < 64 /\ v = Z.testbit b s.
Proof.
  unfold test_bit. destruct (in_board s) eqn:E; [|discriminate].
  intros [= <-]. split; [now apply in_board_iff | reflexivity].
Qed.

Lemma set_bit_Some (b : bitboard) (s : square) (b' : bitboard) :
  set_bit b s = Some b' -> 0 <= s < 64 /\ b' = Z.lor b (bit s).
Proof.
  unfold set_bit. destruct (in_board s) eqn:E; [|discriminate].
  intros [= <-]. split; [now apply in_board_iff | reflexivity].
Qed.

Lemma testbit_bit (s q : Z) : 0 <= s -> Z.testbit (bit s) q = (s =? q).
Proof. intros H. unfold bit. rewrite Z.shiftl_1_l. now apply Z.pow2_bits_eqb. Qed.

Lemma testbit_bit_true (s q : Z) : 0 <= s -> Z.testbit (bit s) q = true <-> q = s.
Proof. intros H. rewrite testbit_bit by exact H. lia. Qed.

Lemma testbit_bnot64 (x : bitboard) (q : Z) :
  0 <= q < 64 -> Z.testbit (bnot64 x) q = negb (Z.testbit x q).
Proof.
  intros H. unfold bnot64.
  rewrite Z.land_spec, Z.lnot_spec, Z.ones_spec_low by lia.
  apply andb_true_r.
Qed.

Lemma testbit_shl64 (x : bitboard) (q : Z) :
  0 <= q < 64 -> Z.testbit (shl64 x 8) q = Z.testbit x (q - 8).
Proof.
  intros H. unfold shl64.
  rewrite Z.land_spec, Z.shiftl_spec, Z.ones_spec_low by lia.
  apply andb_true_r.
Qed.

Lemma row_col (s : square) :
  0 <= s < 64 ->
  0 <= get_row s < 8 /\ 0 <= get_col s < 8 /\ s = 8 * get_row s + get_col s.
Proof.
  intros H. unfold get_row, get_col.
  rewrite Z.quot_div_nonneg, Z.rem_mod_nonneg by lia.
  pose proof (Z.div_mod s 8). pose proof (Z.mod_pos_bound s 8).
  assert (0 <= s / 8 < 8) by (split; [apply Z.div_pos | apply Z.div_lt_upper_bound]; lia).
  lia.
Qed.

Lemma valid_iff (i : Z) : is_valid_dimension i = true <-> 0 <= i < 8.
Proof. unfold is_valid_dimension. lia. Qed.

(** ** Loops over the squares of a mask *)

Section Scan.

Variable f : square -> option bitboard.

Lemma scan_union (a b : bitboard) (l : list square) :
  (forall s, In s l -> 0 <= s < 64) ->
  forall m1 m2,
    foldM (guarded f (Z.lor a b)) l (Z.lor m1 m2)
    = lift2 Z.lor (foldM (guarded f a) l m1) (foldM (guarded f b) l m2).
Proof.
  induction l as [|s l IH]; intros Hl m1 m2; [reflexivity|].
  assert (Hs : 0 <= s < 64) by (apply Hl; left; reflexivity).
  assert (Hl' : forall x, In x l -> 0 <= x < 64) by (intros x Hx; apply Hl; right; exact Hx).
  specialize (IH Hl').
  cbn [foldM]. unfold guarded at 1 3 5.
  rewrite !test_bit_in by exact Hs. rewrite Z.lor_spec.
  unfold lift2 in *.
  destruct (Z.testbit a s), (Z.testbit b s); cbn [bind orb].
  - destruct (f s) as [c|]; cbn [bind]; [|reflexivity].
    replace (Z.lor (Z.lor m1 m2) c) with (Z.lor (Z.lor m1 c) (Z.lor m2 c)).
    + apply IH.
    + rewrite <- !Z.lor_assoc. f_equal.
      rewrite (Z.lor_comm c), <- Z.lor_assoc, Z.lor_diag. reflexivity.
  - destruct (f s) as [c|]; cbn [bind]; [|reflexivity].
    replace (Z.lor (Z.lor m1 m2) c) with (Z.lor (Z.lor m1 c) m2).
    + apply IH.
    + rewrite <- !Z.lor_assoc. f_equal. apply Z.lor_comm.
  - destruct (f s) as [c|]; cbn [bind].
    + rewrite <- Z.lor_assoc. apply IH.
    + destruct (foldM (guarded f a) l m1); reflexivity.
  - apply IH.
Qed.

Lemma guarded_bits (b m m' : bitboard) (s : square) :
  0 <= s < 64 ->
  guarded f b m s = Some m' ->
  forall q, Z.testbit m' q = true <->
            Z.testbit m q = true \/
            (Z.testbit b s = true /\ exists c, f s = Some c /\ Z.testbit c q = true).
Proof.
  intros Hs H q. unfold guarded in H. rewrite test_bit_in in H by exact Hs.
  cbn [bind] in H. destruct (Z.testbit b s).
  - destruct (f s) as [c|]; [|discriminate]. injection H as <-.
    rewrite Z.lor_spec, orb_true_iff. split.
    + intros [H|H]; [left; exact H | right; split; [reflexivity | exists c; auto]].
    + intros [H|(_ & c' & [= <-] & H)]; auto.
  - injection H as <-. split; [auto|]. intros [H|(H & _)]; [exact H | discriminate].
Qed.

Lemma scan_bits (b m : bitboard) :
  foldM (guarded f b) squares 0 = Some m ->
  forall q, Z.testbit m q = true <->
            exists s c, 0 <= s < 64 /\ Z.testbit b s = true /\
                        f s = Some c /\ Z.testbit c q = true.
Proof.
  intros H q.
  rewrite (foldM_bits (guarded f b)
             (fun s q => Z.testbit b s = true /\ exists c, f s = Some c /\ Z.testbit c q = true)
             squares) by
    (first [ exact H
           | intros x m0 m1 Hx; apply guarded_bits; apply in_squares; exact Hx ]).
  rewrite Z.bits_0. split.
  - intros [H0|(s & Hs & Hb & c & Hc & Hq)]; [discriminate|].
    exists s, c. apply in_squares in Hs. auto.
  - intros (s & c & Hs & Hb & Hc & Hq). right. exists s.
    split; [apply in_squares; exact Hs|]. split; [exact Hb|]. exists c. auto.
Qed.

Lemma scan_defined (b m0 : bitboard) :
  (forall s, 0 <= s < 64 -> Z.testbit b s = true -> exists c, f s = Some c) ->
  exists m, foldM (guarded f b) squares m0 = Some m.
Proof.
  intros Hf. apply foldM_total. intros s st Hs. apply in_squares in Hs.
  unfold guarded. rewrite test_bit_in by exact Hs. cbn [bind].
  destruct (Z.testbit b s) eqn:E; [|eauto].
  destruct (Hf s Hs E) as [c ->]. cbn [bind]. eauto.
Qed.

Lemma scan_Some_inv (b : bitboard) (l : list square) :
  (forall s, In s l -> 0 <= s < 64) ->
  forall m0 m, foldM (guarded f b) l m0 = Some m ->
  forall s, In s l -> Z.testbit b s = true -> exists c, f s = Some c.
Proof.
  induction l as [|x l IH]; intros Hl m0 m H s Hs Hb; [destruct Hs|].
  cbn [foldM] in H. apply bind_Some in H. destruct H as (m1 & H1 & H2).
  destruct Hs as [<-|Hs].
  - unfold guarded in H1. rewrite test_bit_in, Hb in H1 by (apply Hl; left; reflexivity).
    cbn [bind] in H1. destruct (f x) as [c|]; [eauto | discriminate].
  - apply (IH (fun y Hy => Hl y (or_intror Hy)) m1 m H2 s Hs Hb).
Qed.

(** The mask with one square selects that square only. *)
Lemma scan_single (s : square) (c : bitboard) :
  0 <= s < 64 ->
  f s = Some c ->
  exists m, foldM (guarded f (bit s)) squares 0 = Some m /\
            forall q, Z.testbit m q = Z.testbit c q.
Proof.
  intros Hs Hc.
  destruct (scan_defined (bit s) 0) as [m Hm].
  { intros x Hx Hb. apply testbit_bit_true in Hb; [|lia]. subst x. eauto. }
  exists m. split; [exact Hm|]. intros q.
  apply eq_true_iff_eq. rewrite (scan_bits (bit s) m Hm q). split.
  - intros (x & c' & Hx & Hb & Hc' & Hq).
    apply testbit_bit_true in Hb; [|lia]. subst x. congruence.
  - intros Hq. exists s, c. repeat split; try lia; auto.
    apply testbit_bit_true; lia.
Qed.

End Scan.

(** ** Pawn moves, one source square *)

Lemma is_en_passant_iff (g : game) (sq : square) :
  is_en_passant g sq = true <-> en_passant g = Some sq.
Proof.
  unfold is_en_passant. destruct (en_passant g) as [e|].
  - rewrite Z.eqb_eq. split; [intros ->; reflexivity | intros [= ->]; reflexivity].
  - split; discriminate.
Qed.

Lemma pawn_from_acc (g : game) (vacant pd sr m : Z) (s : square) :
  pawn_from g vacant pd sr m s
  = c <- pawn_from g vacant pd sr 0 s ;; Some (Z.lor m c).
Proof.
  unfold pawn_from, add_capture, test_bit, set_bit.
  repeat (match goal with
          | |- context [if ?b then _ else _] => destruct b
          end; cbn [bind negb orb]);
    rewrite ?Z.lor_0_l, ?Z.lor_0_r, ?Z.lor_assoc; reflexivity.
Qed.

Lemma add_capture_bits (g : game) (occ : bitboard) (s col pd m dir m' : Z) :
  add_capture g (bnot64 occ) s col pd m dir = Some m' ->
  forall q, Z.testbit m' q = true <->
            Z.testbit m q = true \/
            (q = s + pd + dir /\ col <> capture_edge dir /\
             (Z.testbit occ q = true \/ en_passant g = Some q)).
Proof.
  unfold add_capture, capture_edge. intros H q.
  destruct (Z.eqb_spec col (if dir =? left then 0 else 7)) as [E|E].
  - injection H as <-. split; [auto|]. intros [H|(_ & H & _)]; [exact H | contradiction].
  - apply bind_Some in H. destruct H as (v & Hv & H).
    apply test_bit_Some in Hv. destruct Hv as [Hsq ->].
    rewrite testbit_bnot64, negb_involutive in H by exact Hsq.
    rewrite <- is_en_passant_iff.
    destruct (Z.testbit occ (s + pd + dir) || is_en_passant g (s + pd + dir)) eqn:C.
    + apply set_bit_Some in H. destruct H as [_ ->].
      rewrite Z.lor_spec, orb_true_iff, testbit_bit_true by lia.
      apply orb_true_iff in C. split.
      * intros [H| ->]; [left; exact H | right; auto].
      * intros [H|(-> & _)]; auto.
    + injection H as <-. apply orb_false_iff in C. destruct C as [C1 C2].
      split; [auto|]. intros [H|(-> & _ & [H|H])]; [exact H | congruence | congruence].
Qed.

Lemma pawn_from_bits (g : game) (c : color.t) (s : square) (m : bitboard) :
  pawn_from g (bnot64 (occupancy g)) (get_pawn_direction c) (start_row_of c) 0 s
  = Some m ->
  forall q, Z.testbit m q = true <-> pawn_reach g c s q.
Proof.
  unfold pawn_from. intros H q.
  set (fwd := get_pawn_direction c) in *.
  apply bind_Some in H. destruct H as (v & Hv & H).
  apply test_bit_Some in Hv. destruct Hv as [Ht ->].
  rewrite testbit_bnot64 in H by exact Ht.
  apply bind_Some in H. destruct H as (m1 & H1 & H).
  apply bind_Some in H. destruct H as (m2 & H2 & H3).
  rewrite (add_capture_bits _ _ _ _ _ _ _ _ H3 q).
  rewrite (add_capture_bits _ _ _ _ _ _ _ _ H2 q).
  assert (Hm1 : Z.testbit m1 q = true <->
                pawn_push g c s q \/ pawn_double_push g c s q).
  { unfold pawn_push, pawn_double_push. fold fwd.
    destruct (Z.testbit (occupancy g) (s + fwd)) eqn:Eo; cbn [negb] in H1.
    - injection H1 as <-. rewrite Z.bits_0. split; [discriminate|].
      intros [(-> & H)|(_ & _ & H & _)]; congruence.
    - apply bind_Some in H1. destruct H1 as (m0 & H0 & H1).
      apply set_bit_Some in H0. destruct H0 as [_ ->]. rewrite Z.lor_0_l in H1.
      destruct (Z.eqb_spec (get_row s) (start_row_of c)) as [Er|Er].
      + apply bind_Some in H1. destruct H1 as (v2 & Hv2 & H1).
        apply test_bit_Some in Hv2. destruct Hv2 as [Ht2 ->].
        rewrite testbit_bnot64 in H1 by exact Ht2.
        replace (s + fwd + fwd) with (s + 2 * fwd) in * by lia.
        destruct (Z.testbit (occupancy g) (s + 2 * fwd)) eqn:Eo2; cbn [negb] in H1.
        * injection H1 as <-. rewrite testbit_bit_true by lia. split.
          -- intros ->. left. auto.
          -- intros [(-> & _)|(-> & _ & _ & H)]; [reflexivity | congruence].
        * apply set_bit_Some in H1. destruct H1 as [_ ->].
          rewrite Z.lor_spec, orb_true_iff, !testbit_bit_true by lia. split.
          -- intros [ -> | -> ]; [left | right]; auto.
          -- intros [(-> & _)|(-> & _)]; auto.
      + injection H1 as <-. rewrite testbit_bit_true by lia. split.
        * intros ->. left. auto.
        * intros [(-> & _)|(_ & H & _)]; [reflexivity | contradiction]. }
  unfold pawn_reach, pawn_capture. fold fwd. fold (occupancy g). tauto.
Qed.

Lemma pawn_dir_cases (c : color.t) :
  (c = color.white /\ get_pawn_direction c = -8 /\ start_row_of c = 6) \/
  (c = color.black /\ get_pawn_direction c = 8 /\ start_row_of c = 1).
Proof. destruct c; [left | right]; auto. Qed.

(** A pawn that is not on the last rank of its colour has a defined
    contribution; a pawn on that rank makes the push test read a bit outside
    the mask. *)
Lemma pawn_from_defined (g : game) (c : color.t) (vacant : bitboard) (s : square) :
  0 <= s < 64 ->
  0 <= s + get_pawn_direction c < 64 ->
  exists m, pawn_from g vacant (get_pawn_direction c) (start_row_of c) 0 s = Some m.
Proof.
  intros Hs Ht. destruct (row_col s Hs) as (Hr & Hc & Hrc).
  unfold pawn_from, add_capture, left, right. cbv zeta.
  change (-1 =? -1) with true. change (1 =? -1) with false. cbv iota.
  destruct (pawn_dir_cases c) as [(_ & Hd & Hsr)|(_ & Hd & Hsr)];
    rewrite Hd, Hsr in *;
    repeat (match goal with
            | |- context [test_bit ?v ?t] => rewrite (test_bit_in v t) by lia
            | |- context [set_bit ?v ?t] => rewrite (set_bit_in v t) by lia
            | |- context [if ?b then _ else _] => destruct b eqn:?
            end;
            cbn [bind];
            try match goal with
              | E : (_ =? _) = true |- _ => apply Z.eqb_eq in E
              | E : (_ =? _) = false |- _ => apply Z.eqb_neq in E
              end);
    eauto.
Qed.

Lemma pawn_from_Some_inv (g : game) (vacant pd sr m0 : Z) (s : square) (m : bitboard) :
  pawn_from g vacant pd sr m0 s = Some m -> 0 <= s + pd < 64.
Proof.
  unfold pawn_from. intros H. apply bind_Some in H. destruct H as (v & Hv & _).
  apply test_bit_Some in Hv. tauto.
Qed.

Lemma pawn_body_guarded (g : game) (b vacant pd sr m : Z) (s : square) :
  pawn_body g b vacant pd sr m s = guarded (pawn_from g vacant pd sr 0) b m s.
Proof.
  unfold pawn_body, guarded. destruct (test_bit b s) as [[|]|]; cbn [bind negb];
    [apply pawn_from_acc | reflexivity | reflexivity].
Qed.

Lemma get_pawn_moves_scan (g : game) (b : bitboard) (c : color.t) :
  get_pawn_moves g b c
  = foldM (guarded (pawn_from g (bnot64 (occupancy g)) (get_pawn_direction c)
                      (start_row_of c) 0) b) squares 0.
Proof.
  unfold get_pawn_moves. apply foldM_ext. intros s m _. apply pawn_body_guarded.
Qed.

(** ** Sliding pieces, one source square *)

Lemma valid_square (i j : Z) : 0 <= i < 8 -> 0 <= j < 8 -> 0 <= 8 * i + j < 64.
Proof. lia. Qed.

Section Walk.

Variables (occ : bitboard) (dr dc : Z).

Lemma walk_S (fuel : nat) (i j m : Z) :
  walk (S fuel) occ dr dc i j m
  = if is_valid_dimension i && is_valid_dimension j then
      moves <- set_bit m (8 * i + j) ;;
      hit <- test_bit occ (8 * i + j) ;;
      if hit then Some moves else walk fuel occ dr dc (i + dr) (j + dc) moves
    else Some m.
Proof. reflexivity. Qed.

Lemma walk_acc (fuel : nat) :
  forall i j m,
    walk fuel occ dr dc i j m = c <- walk fuel occ dr dc i j 0 ;; Some (Z.lor m c).
Proof.
  induction fuel as [|fuel IH]; intros i j m; [reflexivity|]. rewrite !walk_S.
  destruct (is_valid_dimension i && is_valid_dimension j);
    [|cbn [bind]; now rewrite Z.lor_0_r].
  unfold set_bit, test_bit. destruct (in_board (8 * i + j)); cbn [bind]; [|reflexivity].
  destruct (Z.testbit occ (8 * i + j)); cbn [bind].
  - now rewrite Z.lor_0_l.
  - rewrite (IH _ _ (Z.lor m _)), (IH _ _ (Z.lor 0 _)).
    destruct (walk fuel occ dr dc (i + dr) (j + dc) 0); cbn [bind]; [|reflexivity].
    now rewrite Z.lor_0_l, Z.lor_assoc.
Qed.

(** The loop terminates within the bound as soon as the ray leaves the
    board after [n] steps. *)
Lemma walk_total (n : nat) :
  forall (fuel : nat) i j m,
    (n < fuel)%nat ->
    ~ (0 <= i + Z.of_nat n * dr < 8 /\ 0 <= j + Z.of_nat n * dc < 8) ->
    exists m', walk fuel occ dr dc i j m = Some m'.
Proof.
  induction n as [|n IH]; intros fuel i j m Hf Hout;
    (destruct fuel as [|fuel]; [lia|]); rewrite walk_S.
  - destruct (is_valid_dimension i && is_valid_dimension j) eqn:V; [|eauto].
    apply andb_true_iff in V. rewrite !valid_iff in V. exfalso. apply Hout. lia.
  - destruct (is_valid_dimension i && is_valid_dimension j) eqn:V; [|eauto].
    apply andb_true_iff in V. rewrite !valid_iff in V. destruct V as [Vi Vj].
    rewrite set_bit_in, test_bit_in by (apply valid_square; assumption). rewrite ?bind_ret; cbv beta.
    destruct (Z.testbit occ (8 * i + j)); [eauto|].
    apply IH; [lia|]. intros H. apply Hout. lia.
Qed.

Lemma walk_bits (fuel : nat) :
  forall i j m m',
    walk fuel occ dr dc i j m = Some m' ->
    forall q, Z.testbit m' q = true <->
      Z.testbit m q = true \/
      exists n, 0 <= n /\
        (forall k, 0 <= k <= n -> 0 <= i + k * dr < 8 /\ 0 <= j + k * dc < 8) /\
        (forall k, 0 <= k < n ->
           Z.testbit occ (8 * (i + k * dr) + (j + k * dc)) = false) /\
        q = 8 * (i + n * dr) + (j + n * dc).
Proof.
  induction fuel as [|fuel IH]; intros i j m m' H q; [discriminate|].
  rewrite walk_S in H.
  destruct (is_valid_dimension i && is_valid_dimension j) eqn:V.
  - apply andb_true_iff in V. rewrite !valid_iff in V. destruct V as [Vi Vj].
    pose proof (valid_square i j Vi Vj) as Hsq.
    rewrite set_bit_in, test_bit_in in H by exact Hsq. rewrite ?bind_ret in H; cbv beta in H.
    assert (H0 : 8 * (i + 0 * dr) + (j + 0 * dc) = 8 * i + j) by ring.
    destruct (Z.testbit occ (8 * i + j)) eqn:Ho.
    + apply Some_inj in H; subst m'.
      rewrite Z.lor_spec, orb_true_iff, testbit_bit_true by lia. split.
      * intros [H| ->]; [left; exact H | right]. exists 0.
        split; [lia|]. split; [|split; [intros k Hk; lia | ring]].
        intros k Hk. assert (k = 0) by lia. subst k. lia.
      * intros [H|(n & Hn & _ & Hocc & ->)]; [left; exact H | right].
        assert (n = 0 \/ 0 < n) as [-> | Hpos] by lia; [ring|].
        specialize (Hocc 0 ltac:(lia)). rewrite H0 in Hocc. congruence.
    + rewrite (IH _ _ _ _ H q). clear H.
      rewrite Z.lor_spec, orb_true_iff, testbit_bit_true by lia. split.
      * intros [[H| ->]|(n & Hn & Hv & Hocc & ->)].
        -- left; exact H.
        -- right. exists 0.
           split; [lia|]. split; [|split; [intros k Hk; lia | ring]].
           intros k Hk. assert (k = 0) by lia. subst k. lia.
        -- right. exists (n + 1). split; [lia|]. split; [|split].
           ++ intros k Hk. assert (k = 0 \/ 1 <= k) as [-> | Hk1] by lia; [lia|].
              specialize (Hv (k - 1) ltac:(lia)).
              replace (i + dr + (k - 1) * dr) with (i + k * dr) in Hv by ring.
              replace (j + dc + (k - 1) * dc) with (j + k * dc) in Hv by ring.
              exact Hv.
           ++ intros k Hk. assert (k = 0 \/ 1 <= k) as [-> | Hk1] by lia.
              ** rewrite H0. exact Ho.
              ** specialize (Hocc (k - 1) ltac:(lia)).
                 replace (i + dr + (k - 1) * dr) with (i + k * dr) in Hocc by ring.
                 replace (j + dc + (k - 1) * dc) with (j + k * dc) in Hocc by ring.
                 exact Hocc.
           ++ ring.
      * intros [H|(n & Hn & Hv & Hocc & ->)]; [left; left; exact H|].
        assert (n = 0 \/ 1 <= n) as [-> | Hn1] by lia; [left; right; ring|].
        right. exists (n - 1). split; [lia|]. split; [|split].
        -- intros k Hk. specialize (Hv (k + 1) ltac:(lia)).
           replace (i + (k + 1) * dr) with (i + dr + k * dr) in Hv by ring.
           replace (j + (k + 1) * dc) with (j + dc + k * dc) in Hv by ring.
           exact Hv.
        -- intros k Hk. specialize (Hocc (k + 1) ltac:(lia)).
           replace (i + (k + 1) * dr) with (i + dr + k * dr) in Hocc by ring.
           replace (j + (k + 1) * dc) with (j + dc + k * dc) in Hocc by ring.
           exact Hocc.
        -- ring.
  - apply Some_inj in H; subst m'. split; [auto|].
    intros [H|(n & Hn & Hv & _)]; [exact H|].
    specialize (Hv 0 ltac:(lia)).
    apply andb_false_iff in V. unfold is_valid_dimension in V. lia.
Qed.

End Walk.

Lemma slide_from_acc (dirs : list (Z * Z)) (occ m : Z) (s : square) :
  slide_from dirs occ m s = c <- slide_from dirs occ 0 s ;; Some (Z.lor m c).
Proof.
  unfold slide_from. apply foldM_acc. intros [dr dc] m' _. apply walk_acc.
Qed.

Lemma slide_body_guarded (dirs : list (Z * Z)) (b occ m : Z) (s : square) :
  slide_body dirs b occ m s = guarded (slide_from dirs occ 0) b m s.
Proof.
  unfold slide_body, guarded. destruct (test_bit b s) as [[|]|]; cbn [bind negb];
    [apply slide_from_acc | reflexivity | reflexivity].
Qed.

Lemma slide_from_total (dirs : list (Z * Z)) (occ m : Z) (s : square) :
  (forall d, In d dirs -> unit_dir d) ->
  0 <= s < 64 ->
  exists c, slide_from dirs occ m s = Some c.
Proof.
  intros Hd Hs. destruct (row_col s Hs) as (Hr & Hc & _).
  unfold slide_from. apply foldM_total. intros [dr dc] st Hin.
  destruct (Hd _ Hin) as (H1 & H2 & H3). cbn [fst snd] in *.
  apply (walk_total occ dr dc 7); [unfold walk_fuel; lia|].
  change (Z.of_nat 7) with 7. lia.
Qed.

Lemma slide_from_bits (dirs : list (Z * Z)) (occ : Z) (s : square) (c : bitboard) :
  slide_from dirs occ 0 s = Some c ->
  forall q, Z.testbit c q = true <->
            exists d n, In d dirs /\ ray_visited occ s d n /\ q = ray_square s d n.
Proof.
  intros H q. unfold slide_from in H.
  assert (Hbody : forall (d : Z * Z) (m m' : bitboard), In d dirs ->
            (let '(dr, dc) := d in
             walk walk_fuel occ dr dc (get_row s + dr) (get_col s + dc) m) = Some m' ->
            forall q, Z.testbit m' q = true <->
              Z.testbit m q = true \/
              (exists n, ray_visited occ s d n /\ q = ray_square s d n)).
  2:{ rewrite (foldM_bits _ _ dirs Hbody _ _ H q).
      rewrite Z.bits_0. split.
      + intros [H0|(d & Hd & n & Hn)]; [discriminate | exists d, n; tauto].
      + intros (d & n & Hd & Hn). right. exists d. split; [exact Hd | exists n; exact Hn]. }
  - clear H q c. intros [dr dc] m m' _ H q.
    rewrite (walk_bits _ _ _ _ _ _ _ _ H q).
    unfold ray_visited, ray_on_board, ray_square. cbn [fst snd].
    set (r := get_row s). set (c := get_col s).
    apply or_iff_compat_l. split.
    + intros (n & Hn & Hv & Hocc & ->). exists (n + 1).
      split; [split; [lia|split]|ring].
      * intros k Hk. specialize (Hv (k - 1) ltac:(lia)).
        replace (r + dr + (k - 1) * dr) with (r + k * dr) in Hv by ring.
        replace (c + dc + (k - 1) * dc) with (c + k * dc) in Hv by ring.
        exact Hv.
      * intros k Hk. specialize (Hocc (k - 1) ltac:(lia)).
        replace (r + dr + (k - 1) * dr) with (r + k * dr) in Hocc by ring.
        replace (c + dc + (k - 1) * dc) with (c + k * dc) in Hocc by ring.
        exact Hocc.
    + intros (n & (Hn & Hv & Hocc) & ->). exists (n - 1).
      split; [lia|]. split; [|split].
      * intros k Hk. specialize (Hv (k + 1) ltac:(lia)).
        replace (r + (k + 1) * dr) with (r + dr + k * dr) in Hv by ring.
        replace (c + (k + 1) * dc) with (c + dc + k * dc) in Hv by ring.
        exact Hv.
      * intros k Hk. specialize (Hocc (k + 1) ltac:(lia)).
        replace (r + (k + 1) * dr) with (r + dr + k * dr) in Hocc by ring.
        replace (c + (k + 1) * dc) with (c + dc + k * dc) in Hocc by ring.
        exact Hocc.
      * ring.
Qed.

Lemma bishop_dirs_unit (d : Z * Z) : In d bishop_dirs -> unit_dir d.
Proof.
  unfold bishop_dirs, unit_dir.
  intros [<-|[<-|[<-|[<-|[]]]]]; cbn [fst snd]; lia.
Qed.

Lemma rook_dirs_unit (d : Z * Z) : In d rook_dirs -> unit_dir d.
Proof.
  unfold rook_dirs, unit_dir.
  intros [<-|[<-|[<-|[<-|[]]]]]; cbn [fst snd]; lia.
Qed.

Create HintDb sliding.
#[local] Hint Resolve bishop_dirs_unit rook_dirs_unit : sliding.

Lemma get_bishop_moves_scan (g : game) (b : bitboard) :
  get_bishop_moves g b
  = foldM (guarded (slide_from bishop_dirs (occupancy g) 0) b) squares 0.
Proof.
  unfold get_bishop_moves. apply foldM_ext. intros s m _. apply slide_body_guarded.
Qed.

Lemma get_rook_moves_scan (g : game) (b : bitboard) :
  get_rook_moves g b
  = foldM (guarded (slide_from rook_dirs (occupancy g) 0) b) squares 0.
Proof.
  unfold get_rook_moves. apply foldM_ext. intros s m _. apply slide_body_guarded.
Qed.

Lemma sliding_total (dirs : list (Z * Z)) (occ b : Z) :
  (forall d, In d dirs -> unit_dir d) ->
  exists m, foldM (guarded (slide_from dirs occ 0) b) squares 0 = Some m.
Proof.
  intros Hd. apply scan_defined. intros s Hs _. now apply slide_from_total.
Qed.

(** ** Offset tables *)

Lemma pawn_attacks_table_eq : make_jump_table [left; right] = Some pawn_attacks_table.
Proof. vm_compute. reflexivity. Qed.

Lemma knight_moves_table_eq : make_jump_table knight_offsets = Some knight_moves_table.
Proof. vm_compute. reflexivity. Qed.

Lemma king_moves_table_eq : make_jump_table king_offsets = Some king_moves_table.
Proof. vm_compute. reflexivity. Qed.

Lemma array_get_total (t : list bitboard) (s : square) :
  length t = 64%nat -> 0 <= s < 64 -> exists e, array_get t s = Some e.
Proof.
  intros Hl Hs. unfold array_get. rewrite (proj2 (in_board_iff s) Hs).
  destruct (nth_error t (Z.to_nat s)) eqn:E; [eauto|].
  apply nth_error_None in E. lia.
Qed.

Lemma table_scan_total (t : list bitboard) (b : bitboard) :
  length t = 64%nat ->
  exists m, foldM (table_body t b) squares 0 = Some m.
Proof.
  intros Hl. apply (scan_defined (array_get t)). intros s Hs _.
  now apply array_get_total.
Qed.

Lemma get_pawn_attacks_scan (g : game) (b : bitboard) (c : color.t) :
  get_pawn_attacks g b c
  = foldM (guarded (array_get pawn_attacks_table)
             (if color.eqb c color.white then shl64 b 8 else Z.shiftr b 8))
          squares 0.
Proof. unfold get_pawn_attacks. rewrite pawn_attacks_table_eq. reflexivity. Qed.

Lemma get_knight_moves_scan (g : game) (b : bitboard) :
  get_knight_moves g b = foldM (guarded (array_get knight_moves_table) b) squares 0.
Proof.
  unfold get_knight_moves. fold knight_offsets.
  rewrite knight_moves_table_eq. reflexivity.
Qed.

Lemma get_king_moves_scan (g : game) (b : bitboard) :
  get_king_moves g b = foldM (guarded (array_get king_moves_table) b) squares 0.
Proof.
  unfold get_king_moves. fold king_offsets.
  rewrite king_moves_table_eq. reflexivity.
Qed.

(** ** Generators as unions over the source squares *)

Lemma scan_empty (f : square -> option bitboard) (l : list square) (m : bitboard) :
  (forall s, In s l -> 0 <= s < 64) ->
  foldM (guarded f 0) l m = Some m.
Proof.
  induction l as [|s l IH]; intros Hl; [reflexivity|].
  cbn [foldM]. unfold guarded at 1.
  rewrite test_bit_in, Z.bits_0, bind_ret by (apply Hl; left; reflexivity).
  rewrite bind_ret. apply IH. intros x Hx. apply Hl. right; exact Hx.
Qed.

Lemma scan_lor (f : square -> option bitboard) (a b : bitboard) :
  foldM (guarded f (Z.lor a b)) squares 0
  = lift2 Z.lor (foldM (guarded f a) squares 0) (foldM (guarded f b) squares 0).
Proof.
  change 0 with (Z.lor 0 0) at 1.
  apply scan_union. intros s Hs. now apply in_squares.
Qed.

Lemma scan_zero (f : square -> option bitboard) :
  foldM (guarded f 0) squares 0 = Some 0.
Proof. apply scan_empty. intros s Hs. now apply in_squares. Qed.

Lemma homomorphism_of_scan (gen : bitboard -> option bitboard)
  (f : square -> option bitboard) :
  (forall b, gen b = foldM (guarded f b) squares 0) ->
  union_homomorphism gen.
Proof.
  intros H. split.
  - intros a b. rewrite (H (Z.lor a b)), (H a), (H b). apply scan_lor.
  - rewrite (H 0). apply scan_zero.
Qed.

Lemma scan_agree (f : square -> option bitboard) (b b' : bitboard) :
  (forall s, 0 <= s < 64 -> Z.testbit b s = Z.testbit b' s) ->
  foldM (guarded f b) squares 0 = foldM (guarded f b') squares 0.
Proof.
  intros H. apply foldM_ext. intros s m Hs. apply in_squares in Hs.
  unfold guarded. rewrite !test_bit_in by exact Hs. now rewrite (H s Hs).
Qed.

Lemma lift2_lor_swap (w x y z : option bitboard) :
  lift2 Z.lor (lift2 Z.lor w x) (lift2 Z.lor y z)
  = lift2 Z.lor (lift2 Z.lor w y) (lift2 Z.lor x z).
Proof.
  destruct w as [w|], x as [x|], y as [y|], z as [z|]; try reflexivity.
  unfold lift2. rewrite !bind_ret. f_equal.
  rewrite <- !Z.lor_assoc. f_equal. rewrite !Z.lor_assoc. f_equal. apply Z.lor_comm.
Qed.

Lemma get_pawn_moves_bits (g : game) (b : bitboard) (c : color.t) (m : bitboard) :
  get_pawn_moves g b c = Some m ->
  forall q, Z.testbit m q = true <->
            exists s, 0 <= s < 64 /\ Z.testbit b s = true /\ pawn_reach g c s q.
Proof.
  rewrite get_pawn_moves_scan. intros H q. rewrite (scan_bits _ _ _ H q). split.
  - intros (s & c0 & Hs & Hb & Hc & Hq). exists s. split; [exact Hs|]. split; [exact Hb|].
    now apply (pawn_from_bits g c s c0 Hc q).
  - intros (s & Hs & Hb & Hq).
    destruct (scan_Some_inv _ _ squares (fun x Hx => proj1 (in_squares x) Hx)
                _ _ H s (proj2 (in_squares s) Hs) Hb) as [c0 Hc].
    exists s, c0. repeat split; try lia; auto.
    now apply (pawn_from_bits g c s c0 Hc q).
Qed.

Lemma get_pawn_moves_defined (g : game) (b : bitboard) (c : color.t) :
  (forall s, 0 <= s < 64 -> Z.testbit b s = true ->
             0 <= s + get_pawn_direction c < 64) ->
  exists m, get_pawn_moves g b c = Some m.
Proof.
  intros H. rewrite get_pawn_moves_scan. apply scan_defined.
  intros s Hs Hb. apply pawn_from_defined; auto.
Qed.

Lemma get_pawn_moves_Some_inv (g : game) (b : bitboard) (c : color.t) (m : bitboard) :
  get_pawn_moves g b c = Some m ->
  forall s, 0 <= s < 64 -> Z.testbit b s = true ->
            0 <= s + get_pawn_direction c < 64.
Proof.
  rewrite get_pawn_moves_scan. intros H s Hs Hb.
  destruct (scan_Some_inv _ _ squares (fun x Hx => proj1 (in_squares x) Hx)
              _ _ H s (proj2 (in_squares s) Hs) Hb) as [c0 Hc].
  now apply pawn_from_Some_inv in Hc.
Qed.

Lemma get_pawn_moves_single (g : game) (c : color.t) (s : square) :
  0 <= s < 64 ->
  0 <= s + get_pawn_direction c < 64 ->
  exists m, get_pawn_moves g (bit s) c = Some m /\
            forall q, Z.testbit m q = true <-> pawn_reach g c s q.
Proof.
  intros Hs Ht. destruct (get_pawn_moves_defined g (bit s) c) as [m Hm].
  { intros x Hx Hb. apply testbit_bit_true in Hb; [|lia]. now subst x. }
  exists m. split; [exact Hm|]. intros q.
  rewrite (get_pawn_moves_bits g _ c m Hm q). split.
  - intros (x & Hx & Hb & Hq). apply testbit_bit_true in Hb; [|lia]. now subst x.
  - intros Hq. exists s. repeat split; try lia; auto. apply testbit_bit_true; lia.
Qed.

Lemma sliding_bits (dirs : list (Z * Z)) (occ b m : bitboard) :
  foldM (guarded (slide_from dirs occ 0) b) squares 0 = Some m ->
  forall q, Z.testbit m q = true <->
            exists s d n, 0 <= s < 64 /\ Z.testbit b s = true /\ In d dirs /\
                          ray_visited occ s d n /\ q = ray_square s d n.
Proof.
  intros H q. rewrite (scan_bits _ _ _ H q). split.
  - intros (s & c0 & Hs & Hb & Hc & Hq).
    apply (slide_from_bits dirs occ s c0 Hc q) in Hq.
    destruct Hq as (d & n & Hd & Hv & ->). exists s, d, n. auto.
  - intros (s & d & n & Hs & Hb & Hd & Hv & ->).
    destruct (scan_Some_inv _ _ squares (fun x Hx => proj1 (in_squares x) Hx)
                _ _ H s (proj2 (in_squares s) Hs) Hb) as [c0 Hc].
    exists s, c0. repeat split; try lia; auto.
    apply (slide_from_bits dirs occ s c0 Hc). exists d, n. auto.
Qed.

(** ** Rays of a single sliding piece *)

Lemma unit_dir_cases (d : Z * Z) :
  unit_dir d ->
  (fst d = -1 \/ fst d = 0 \/ fst d = 1) /\ (snd d = -1 \/ snd d = 0 \/ snd d = 1).
Proof. unfold unit_dir. lia. Qed.

(** Two rays from the same square meet only where they are the same ray at
    the same distance. *)
Lemma ray_square_inj (s : square) (d d' : Z * Z) (n n' : Z) :
  unit_dir d -> unit_dir d' -> 1 <= n -> 1 <= n' ->
  ray_on_board s d n -> ray_on_board s d' n' ->
  ray_square s d n = ray_square s d' n' ->
  d = d' /\ n = n'.
Proof.
  unfold ray_on_board, ray_square. destruct d as [dr dc], d' as [dr' dc']. cbn [fst snd].
  intros Hd Hd' Hn Hn' Hb Hb' Heq.
  pose proof (unit_dir_cases _ Hd) as (Hr & Hc).
  pose proof (unit_dir_cases _ Hd') as (Hr' & Hc').
  destruct Hd as (_ & _ & Hnz), Hd' as (_ & _ & Hnz'). cbn [fst snd] in *.
  destruct Hr as [->|[->| ->]], Hc as [->|[->| ->]],
           Hr' as [->|[->| ->]], Hc' as [->|[->| ->]];
    try lia; split; try reflexivity; lia.
Qed.

(** The squares of a ray between the source and a square on the board are
    on the board. *)
Lemma ray_convex (s : square) (d : Z * Z) (n k : Z) :
  0 <= s < 64 -> unit_dir d -> 1 <= k <= n ->
  ray_on_board s d n -> ray_on_board s d k.
Proof.
  unfold ray_on_board. intros Hs Hd Hk Hn.
  destruct (row_col s Hs) as (Hr & Hc & _). revert Hn.
  destruct (unit_dir_cases _ Hd) as ([->|[->| ->]] & [->|[->| ->]]); lia.
Qed.

Lemma sliding_ray (dirs : list (Z * Z)) (occ m : bitboard) (s : square) (d : Z * Z) :
  (forall x, In x dirs -> unit_dir x) ->
  0 <= s < 64 -> In d dirs ->
  foldM (guarded (slide_from dirs occ 0) (bit s)) squares 0 = Some m ->
  forall n, 1 <= n -> ray_on_board s d n ->
    (Z.testbit m (ray_square s d n) = true <->
     forall k, 1 <= k < n -> Z.testbit occ (ray_square s d k) = false).
Proof.
  intros Hdirs Hs Hd Hm n Hn Hb.
  rewrite (sliding_bits dirs occ (bit s) m Hm). split.
  - intros (s' & d' & n' & Hs' & Hbit & Hd' & (Hn' & Hv & Hocc) & Heq).
    apply testbit_bit_true in Hbit; [|lia]. subst s'.
    destruct (ray_square_inj s d d' n n') as [<- <-]; auto.
    apply Hv. lia.
  - intros Hocc. exists s, d, n.
    split; [exact Hs|]. split; [apply testbit_bit_true; lia|]. split; [exact Hd|].
    split; [|reflexivity]. split; [exact Hn|]. split; [|exact Hocc].
    intros k Hk. apply (ray_convex s d n k); auto.
Qed.

Lemma sliding_ray_truncated (dirs : list (Z * Z)) (occ m : bitboard) (s : square)
  (d : Z * Z) :
  (forall x, In x dirs -> unit_dir x) ->
  0 <= s < 64 -> In d dirs ->
  foldM (guarded (slide_from dirs occ 0) (bit s)) squares 0 = Some m ->
  ray_truncated occ s d m /\ ray_open occ s d m.
Proof.
  intros Hdirs Hs Hd Hm. split.
  - intros k Hk Hbk Hock Hfree n Hn Hbn.
    apply eq_true_iff_eq.
    rewrite (sliding_ray dirs occ m s d Hdirs Hs Hd Hm n Hn Hbn), Z.leb_le. split.
    + intros H. destruct (Z.le_gt_cases n k) as [Hle|Hgt]; [exact Hle|].
      specialize (H k ltac:(lia)). congruence.
    + intros Hle j Hj. apply Hfree. lia.
  - intros Hfree n Hn Hbn.
    apply (sliding_ray dirs occ m s d Hdirs Hs Hd Hm n Hn Hbn).
    intros k Hk. apply Hfree; [lia|].
    apply (ray_convex s d n k); auto. lia.
Qed.

(** ** The generators on concrete positions *)

Example knight_on_corner :
  get_knight_moves empty_game (bit 0) = Some (Z.lor (bit 10) (bit 17)).
Proof. vm_compute. reflexivity. Qed.

Example king_on_corner :
  get_king_moves empty_game (bit 0) = Some (Z.lor (bit 1) (Z.lor (bit 8) (bit 9))).
Proof. vm_compute. reflexivity. Qed.

Example king_in_centre :
  option_map popcount (get_king_moves empty_game (bit 27)) = Some 8%nat.
Proof. vm_compute. reflexivity. Qed.

Example rook_on_empty_board :
  forallb (fun s => match get_rook_moves empty_game (bit s) with
                    | Some m => (popcount m =? 14)%nat
                    | None => false
                    end) squares = true.
Proof. vm_compute. reflexivity. Qed.

Example white_pawn_double_push :
  get_pawn_moves empty_game (bit 52) color.white = Some (Z.lor (bit 44) (bit 36)).
Proof. vm_compute. reflexivity. Qed.

Example white_pawn_on_last_rank :
  get_pawn_moves empty_game (bit 3) color.white = None.
Proof. vm_compute. reflexivity. Qed.

(** * The generators *)

Lemma shl64_lor (a b : bitboard) :
  shl64 (Z.lor a b) 8 = Z.lor (shl64 a 8) (shl64 b 8).
Proof. unfold shl64. now rewrite Z.shiftl_lor, Z.land_lor_distr_l. Qed.

Lemma get_bishop_moves_total (g : game) : total (get_bishop_moves g).
Proof.
  intros b. rewrite get_bishop_moves_scan. apply sliding_total, bishop_dirs_unit.
Qed.

Lemma get_rook_moves_total (g : game) : total (get_rook_moves g).
Proof.
  intros b. rewrite get_rook_moves_scan. apply sliding_total, rook_dirs_unit.
Qed.

Lemma get_pawn_attacks_total (g : game) (c : color.t) :
  total (fun b => get_pawn_attacks g b c).
Proof. intros b. rewrite get_pawn_attacks_scan. now apply table_scan_total. Qed.

Lemma get_knight_moves_total (g : game) : total (get_knight_moves g).
Proof. intros b. rewrite get_knight_moves_scan. now apply table_scan_total. Qed.

Lemma get_king_moves_total (g : game) : total (get_king_moves g).
Proof. intros b. rewrite get_king_moves_scan. now apply table_scan_total. Qed.

(** C2: for a single bishop or rook on [s] and each of its four directions,
    a first occupant at distance [k] on the ray leaves exactly the squares
    at distances 1..k of that ray set, the occupied square included and
    nothing beyond it; on a ray without occupant every square up to the board
    edge is set. *)
Theorem sliding_blocker_truncates (g : game) (s : square) (d : Z * Z) :
  0 <= s < 64 ->
  (In d bishop_dirs ->
   exists m, get_bishop_moves g (bit s) = Some m /\
             ray_truncated (occupancy g) s d m /\ ray_open (occupancy g) s d m) /\
  (In d rook_dirs ->
   exists m, get_rook_moves g (bit s) = Some m /\
             ray_truncated (occupancy g) s d m /\ ray_open (occupancy g) s d m).
Proof.
  intros Hs. split; intros Hd.
  - destruct (get_bishop_moves_total g (bit s)) as [m Hm].
    exists m. split; [exact Hm|]. rewrite get_bishop_moves_scan in Hm.
    apply (sliding_ray_truncated bishop_dirs); auto with sliding.
  - destruct (get_rook_moves_total g (bit s)) as [m Hm].
    exists m. split; [exact Hm|]. rewrite get_rook_moves_scan in Hm.
    apply (sliding_ray_truncated rook_dirs); auto with sliding.
Qed.

(** The rook on 27 of [sample_game] looks down its file: 35 is free, 43 is
    occupied, 51 lies behind the occupant. *)
Lemma sliding_blocker_truncates_witness :
  exists m, get_rook_moves sample_game (bit 27) = Some m /\
            Z.testbit m 35 = true /\ Z.testbit m 43 = true /\ Z.testbit m 51 = false.
Proof.
  destruct (sliding_blocker_truncates sample_game 27 (1, 0) ltac:(lia)) as [_ Hr].
  destruct (Hr ltac:(left; reflexivity)) as (m & Hm & Htr & _).
  exists m. split; [exact Hm|].
  assert (Hcut : forall n, 1 <= n -> ray_on_board 27 (1, 0) n ->
                 Z.testbit m (ray_square 27 (1, 0) n) = (n <=? 2)).
  { apply Htr.
    - lia.
    - vm_compute. intuition discriminate.
    - reflexivity.
    - intros n Hn. assert (n = 1) as -> by lia. reflexivity. }
  split; [|split].
  - apply (Hcut 1); [lia | vm_compute; intuition discriminate].
  - apply (Hcut 2); [lia | vm_compute; intuition discriminate].
  - apply (Hcut 3); [lia | vm_compute; intuition discriminate].
Defined.

(** C7: the queen's result is the bitwise OR of the bishop's and the rook's
    results for the same source mask on the same board. *)
Theorem queen_is_bishop_or_rook (g : game) (b : bitboard) :
  exists bm rm,
    get_bishop_moves g b = Some bm /\ get_rook_moves g b = Some rm /\
    get_queen_moves g b = Some (Z.lor bm rm).
Proof.
  destruct (get_bishop_moves_total g b) as [bm Hb].
  destruct (get_rook_moves_total g b) as [rm Hr].
  exists bm, rm. unfold get_queen_moves. rewrite Hb, Hr. auto.
Qed.

Lemma get_queen_moves_total (g : game) : total (get_queen_moves g).
Proof.
  intros b. unfold get_queen_moves.
  destruct (get_bishop_moves_total g b) as [bm ->].
  destruct (get_rook_moves_total g b) as [rm ->]. rewrite !bind_ret. eauto.
Qed.

(** C8: every generator is a union homomorphism in its source mask, and
    yields the empty bitboard on the empty mask.  [get_pawn_moves] has no
    defined result on a mask with a pawn on the last rank of its colour; the
    six other generators are total. *)
Theorem generators_union_homomorphism (g : game) (c : color.t) :
  union_homomorphism (fun b => get_pawn_moves g b c) /\
  (union_homomorphism (fun b => get_pawn_attacks g b c) /\
   total (fun b => get_pawn_attacks g b c)) /\
  (union_homomorphism (get_knight_moves g) /\ total (get_knight_moves g)) /\
  (union_homomorphism (get_king_moves g) /\ total (get_king_moves g)) /\
  (union_homomorphism (get_bishop_moves g) /\ total (get_bishop_moves g)) /\
  (union_homomorphism (get_rook_moves g) /\ total (get_rook_moves g)) /\
  (union_homomorphism (get_queen_moves g) /\ total (get_queen_moves g)).
Proof.
  assert (Hb : union_homomorphism (get_bishop_moves g))
    by exact (homomorphism_of_scan _ _ (get_bishop_moves_scan g)).
  assert (Hr : union_homomorphism (get_rook_moves g))
    by exact (homomorphism_of_scan _ _ (get_rook_moves_scan g)).
  split; [|split; [split|split; [split|split; [split|split; [split|split; [split|split]]]]]].
  - exact (homomorphism_of_scan _ _ (fun b => get_pawn_moves_scan g b c)).
  - split.
    + intros a b. rewrite (get_pawn_attacks_scan g (Z.lor a b)),
        (get_pawn_attacks_scan g a), (get_pawn_attacks_scan g b).
      destruct c; cbn [color.eqb].
      * rewrite shl64_lor. apply scan_lor.
      * rewrite Z.shiftr_lor. apply scan_lor.
    + rewrite get_pawn_attacks_scan. destruct c; cbn [color.eqb].
      * change (shl64 0 8) with 0. apply scan_zero.
      * change (Z.shiftr 0 8) with 0. apply scan_zero.
  - apply get_pawn_attacks_total.
  - exact (homomorphism_of_scan _ _ (get_knight_moves_scan g)).
  - apply get_knight_moves_total.
  - exact (homomorphism_of_scan _ _ (get_king_moves_scan g)).
  - apply get_king_moves_total.
  - exact Hb.
  - apply get_bishop_moves_total.
  - exact Hr.
  - apply get_rook_moves_total.
  - destruct Hb as [Hb Hb0], Hr as [Hr Hr0]. split.
    + intros a b.
      transitivity (lift2 Z.lor
                      (lift2 Z.lor (get_bishop_moves g a) (get_bishop_moves g b))
                      (lift2 Z.lor (get_rook_moves g a) (get_rook_moves g b))).
      * exact (f_equal2 (lift2 Z.lor) (Hb a b) (Hr a b)).
      * exact (lift2_lor_swap (get_bishop_moves g a) (get_bishop_moves g b)
                 (get_rook_moves g a) (get_rook_moves g b)).
    + exact (f_equal2 (lift2 Z.lor) Hb0 Hr0).
  - apply get_queen_moves_total.
Qed.

(** ** Pawn attacks *)

Lemma testbit_high (b : bitboard) (q : Z) :
  is_bitboard b -> 64 <= q -> Z.testbit b q = false.
Proof.
  intros Hb Hq. rewrite <- (Z.mod_small b (2 ^ 64)) by exact Hb.
  apply Z.mod_pow2_bits_high. lia.
Qed.

Lemma is_bitboard_bit (s : square) : 0 <= s < 64 -> is_bitboard (bit s).
Proof.
  intros Hs. unfold is_bitboard, bit. rewrite Z.shiftl_1_l. split.
  - apply Z.pow_nonneg. lia.
  - apply Z.pow_lt_mono_r; lia.
Qed.

Lemma is_bitboard_lor (a b : bitboard) :
  is_bitboard a -> is_bitboard b -> is_bitboard (Z.lor a b).
Proof.
  unfold is_bitboard. intros Ha Hb.
  assert (H0 : 0 <= Z.lor a b) by (apply Z.lor_nonneg; lia).
  split; [exact H0|].
  destruct (Z.eq_dec (Z.lor a b) 0) as [->|Hnz]; [lia|].
  apply Z.log2_lt_pow2; [lia|]. rewrite Z.log2_lor by lia.
  apply Z.max_lub_lt.
  - destruct (Z.eq_dec a 0) as [->|Ha0]; [reflexivity|]. apply Z.log2_lt_pow2; lia.
  - destruct (Z.eq_dec b 0) as [->|Hb0]; [reflexivity|]. apply Z.log2_lt_pow2; lia.
Qed.

(** The white call reads the bits 0..55 of the mask only (the squares 0..55
    under [lsb_first]). *)
Lemma pawn_attacks_white_agree (g : game) (b b' : bitboard) :
  (forall s, 0 <= s < 56 -> Z.testbit b s = Z.testbit b' s) ->
  get_pawn_attacks g b color.white = get_pawn_attacks g b' color.white.
Proof.
  intros H. rewrite (get_pawn_attacks_scan g b), (get_pawn_attacks_scan g b').
  cbn [color.eqb]. apply scan_agree. intros s Hs.
  rewrite !testbit_shl64 by exact Hs.
  destruct (Z.lt_ge_cases s 8) as [Hlt|Hge].
  - now rewrite !Z.testbit_neg_r by lia.
  - apply H. lia.
Qed.

(** The black call reads the bits 8..63 of the mask only (the squares 8..63
    under [lsb_first]). *)
Lemma pawn_attacks_black_agree (g : game) (b b' : bitboard) :
  is_bitboard b -> is_bitboard b' ->
  (forall s, 8 <= s < 64 -> Z.testbit b s = Z.testbit b' s) ->
  get_pawn_attacks g b color.black = get_pawn_attacks g b' color.black.
Proof.
  intros Hb Hb' H. rewrite (get_pawn_attacks_scan g b), (get_pawn_attacks_scan g b').
  cbn [color.eqb]. apply scan_agree. intros s Hs.
  rewrite !Z.shiftr_spec by lia.
  destruct (Z.lt_ge_cases (s + 8) 64) as [Hlt|Hge].
  - apply H. lia.
  - now rewrite !testbit_high by assumption.
Qed.

Lemma get_pawn_attacks_empty (g : game) (c : color.t) :
  get_pawn_attacks g 0 c = Some 0.
Proof.
  rewrite get_pawn_attacks_scan. destruct c; cbn [color.eqb].
  - change (shl64 0 8) with 0. apply scan_zero.
  - change (Z.shiftr 0 8) with 0. apply scan_zero.
Qed.

Lemma option_eqb_eq (x y : option Z) : option_eqb x y = true -> x = y.
Proof.
  destruct x, y; cbn; try discriminate; [|reflexivity].
  intros H. apply Z.eqb_eq in H. now subst.
Qed.

Lemma forall_squares (P : square -> bool) :
  forallb P squares = true -> forall s, 0 <= s < 64 -> P s = true.
Proof.
  intros H s Hs. rewrite forallb_forall in H. apply H, in_squares, Hs.
Qed.

(** One pawn under the numbering [lsb_first]: the white mask is shifted
    toward the higher squares and the pawn on [s] is looked up at [s + 8],
    the black mask toward the lower squares and the pawn is looked up at
    [s - 8]. *)
Lemma get_pawn_attacks_single (g : game) (s : square) :
  0 <= s < 64 ->
  get_pawn_attacks g (bit s) color.white
  = (if s <? 56 then array_get pawn_attacks_table (s + 8) else Some 0) /\
  get_pawn_attacks g (bit s) color.black
  = (if 8 <=? s then array_get pawn_attacks_table (s - 8) else Some 0).
Proof.
  intros Hs.
  assert (H : forallb (fun s =>
              option_eqb (get_pawn_attacks g (bit s) color.white)
                (if s <? 56 then array_get pawn_attacks_table (s + 8) else Some 0)
              && option_eqb (get_pawn_attacks g (bit s) color.black)
                   (if 8 <=? s then array_get pawn_attacks_table (s - 8) else Some 0))
            squares = true) by (vm_compute; reflexivity).
  pose proof (forall_squares _ H s Hs) as H1. cbv beta in H1.
  apply andb_true_iff in H1. destruct H1 as [H1 H2].
  split; apply option_eqb_eq; assumption.
Qed.

(** Under the numbering [lsb_first]: [get_pawn_attacks] evaluated on one
    pawn on square 36.  The white call returns the table entry of square
    44 = 36 + 8, the squares 43 and 45; the black call returns the entry of
    28 = 36 - 8, the squares 27 and 29. *)
Theorem pawn_attacks_shift_against_forward :
  get_pawn_attacks sample_game (bit 36) color.white = Some (Z.lor (bit 43) (bit 45)) /\
  get_pawn_attacks sample_game (bit 36) color.black = Some (Z.lor (bit 27) (bit 29)) /\
  array_get pawn_attacks_table (36 + get_pawn_direction color.white)
  = Some (Z.lor (bit 27) (bit 29)) /\
  array_get pawn_attacks_table (36 + get_pawn_direction color.black)
  = Some (Z.lor (bit 43) (bit 45)).
Proof. vm_compute. repeat split; reflexivity. Qed.

(** C9: the results of [get_knight_moves], [get_king_moves] and
    [get_pawn_attacks] are the same on any two boards: they are determined
    by the source mask (and the colour). *)
Theorem short_range_ignore_occupancy (g1 g2 : game) (b : bitboard) (c : color.t) :
  get_knight_moves g1 b = get_knight_moves g2 b /\
  get_king_moves g1 b = get_king_moves g2 b /\
  get_pawn_attacks g1 b c = get_pawn_attacks g2 b c.
Proof. repeat split; reflexivity. Qed.

(** Under the numbering [lsb_first]: a white source on the squares 56..63,
    and a black source on the squares 0..7, is shifted out of the mask:
    adding it to a source mask does not change the result, and alone it
    yields the empty bitboard. *)
Theorem pawn_attacks_discard_shifted_rank (g : game) (b : bitboard) (s : square) :
  is_bitboard b ->
  (56 <= s < 64 ->
   get_pawn_attacks g (Z.lor b (bit s)) color.white = get_pawn_attacks g b color.white /\
   get_pawn_attacks g (bit s) color.white = Some 0) /\
  (0 <= s < 8 ->
   get_pawn_attacks g (Z.lor b (bit s)) color.black = get_pawn_attacks g b color.black /\
   get_pawn_attacks g (bit s) color.black = Some 0).
Proof.
  intros Hb. split; intros Hs; split.
  - apply pawn_attacks_white_agree. intros q Hq.
    rewrite Z.lor_spec, testbit_bit by lia.
    destruct (Z.eqb_spec s q); [lia | apply orb_false_r].
  - rewrite <- (get_pawn_attacks_empty g color.white).
    apply pawn_attacks_white_agree. intros q Hq.
    rewrite Z.bits_0, testbit_bit by lia. destruct (Z.eqb_spec s q); [lia | reflexivity].
  - apply pawn_attacks_black_agree;
      [apply is_bitboard_lor; [exact Hb | apply is_bitboard_bit; lia] | exact Hb |].
    intros q Hq. rewrite Z.lor_spec, testbit_bit by lia.
    destruct (Z.eqb_spec s q); [lia | apply orb_false_r].
  - rewrite <- (get_pawn_attacks_empty g color.black).
    apply pawn_attacks_black_agree;
      [apply is_bitboard_bit; lia | unfold is_bitboard; lia |].
    intros q Hq.
    rewrite Z.bits_0, testbit_bit by lia. destruct (Z.eqb_spec s q); [lia | reflexivity].
Qed.

Lemma pawn_attacks_discard_shifted_rank_witness :
  get_pawn_attacks sample_game (Z.lor (bit 10) (bit 60)) color.white
  = get_pawn_attacks sample_game (bit 10) color.white /\
  get_pawn_attacks sample_game (bit 60) color.white = Some 0.
Proof.
  apply (pawn_attacks_discard_shifted_rank sample_game (bit 10) 60).
  - unfold is_bitboard. vm_compute. split; [discriminate | reflexivity].
  - lia.
Defined.

(** ** Pawn moves *)

Lemma start_row_on_board (c : color.t) (s : square) :
  0 <= s < 64 -> get_row s = start_row_of c ->
  0 <= s + get_pawn_direction c < 64 /\
  0 <= s + get_pawn_direction c + get_pawn_direction c < 64.
Proof.
  intros Hs Hrow. destruct (row_col s Hs) as (Hr & Hc & Hrc).
  destruct (pawn_dir_cases c) as [(_ & Hd & Hsr)|(_ & Hd & Hsr)]; lia.
Qed.

Lemma occupancy_pieces (g : game) (c : color.t) (q : Z) :
  Z.testbit (pieces_of g c) q = true -> Z.testbit (occupancy g) q = true.
Proof.
  unfold occupancy, pieces_of. rewrite Z.lor_spec.
  destruct c; intros ->; [apply orb_true_r | reflexivity].
Qed.

Lemma get_pawn_moves_colour_blind (g g' : game) (b : bitboard) (c : color.t) :
  occupancy g = occupancy g' -> en_passant g = en_passant g' ->
  get_pawn_moves g b c = get_pawn_moves g' b c.
Proof.
  intros Hocc Hep. unfold get_pawn_moves.
  change (Z.lor (black (board g)) (white (board g))) with (occupancy g).
  change (Z.lor (black (board g')) (white (board g'))) with (occupancy g').
  rewrite Hocc. apply foldM_ext. intros s m _.
  unfold pawn_body, pawn_from, add_capture, is_en_passant. now rewrite Hep.
Qed.

(** Adding the pawn on [s] to a mask adds the squares that pawn reaches. *)
Lemma get_pawn_moves_add_bits (g : game) (c : color.t) (b m m' : bitboard)
  (s : square) :
  0 <= s < 64 ->
  get_pawn_moves g b c = Some m ->
  get_pawn_moves g (Z.lor b (bit s)) c = Some m' ->
  forall q, Z.testbit m' q = true <-> Z.testbit m q = true \/ pawn_reach g c s q.
Proof.
  intros Hs Hm Hm' q.
  rewrite (get_pawn_moves_bits g _ c m' Hm' q), (get_pawn_moves_bits g _ c m Hm q).
  split.
  - intros (x & Hx & Hb & Hq). rewrite Z.lor_spec, orb_true_iff in Hb.
    destruct Hb as [Hb|Hb].
    + left. exists x. auto.
    + apply testbit_bit_true in Hb; [|lia]. subst x. right. exact Hq.
  - intros [(x & Hx & Hb & Hq)|Hq].
    + exists x. rewrite Z.lor_spec, Hb. auto.
    + exists s. rewrite Z.lor_spec, orb_true_iff, testbit_bit_true by lia. auto.
Qed.

Lemma get_pawn_moves_add_defined (g : game) (c : color.t) (b m : bitboard)
  (s : square) :
  0 <= s < 64 ->
  0 <= s + get_pawn_direction c < 64 ->
  get_pawn_moves g b c = Some m ->
  exists m', get_pawn_moves g (Z.lor b (bit s)) c = Some m'.
Proof.
  intros Hs Ht Hm. apply get_pawn_moves_defined. intros x Hx Hb.
  rewrite Z.lor_spec, orb_true_iff in Hb. destruct Hb as [Hb|Hb].
  - apply (get_pawn_moves_Some_inv g b c m Hm x Hx Hb).
  - apply testbit_bit_true in Hb; [|lia]. now subst x.
Qed.

(** A square the pawn on [s] does not reach is left as it is when that pawn
    joins the mask. *)
Lemma get_pawn_moves_add_unreached (g : game) (c : color.t) (b m m' : bitboard)
  (s q : square) :
  0 <= s < 64 ->
  get_pawn_moves g b c = Some m ->
  get_pawn_moves g (Z.lor b (bit s)) c = Some m' ->
  ~ pawn_reach g c s q ->
  Z.testbit m' q = Z.testbit m q.
Proof.
  intros Hs Hm Hm' Hq. apply eq_true_iff_eq.
  rewrite (get_pawn_moves_add_bits g c b m m' s Hs Hm Hm' q). tauto.
Qed.

(** C3: a pawn on the starting row of its colour.  With the square [t] in
    front of it vacant, [t] is set, and so is [t2] behind [t] when [t2] is
    vacant too; with [t] occupied, neither [t] nor [t2] is set by this pawn,
    whatever stands on [t2]: alone it leaves both clear, and joining any
    other mask it changes neither. *)
Theorem pawn_start_row_pushes (g : game) (c : color.t) (s : square) :
  0 <= s < 64 ->
  get_row s = start_row_of c ->
  let t := s + get_pawn_direction c in
  let t2 := t + get_pawn_direction c in
  (forall b m,
     Z.testbit b s = true -> get_pawn_moves g b c = Some m ->
     Z.testbit (occupancy g) t = false ->
     Z.testbit m t = true /\
     (Z.testbit (occupancy g) t2 = false -> Z.testbit m t2 = true)) /\
  (exists m,
     get_pawn_moves g (bit s) c = Some m /\
     (Z.testbit (occupancy g) t = false ->
      Z.testbit m t = true /\
      Z.testbit m t2 = negb (Z.testbit (occupancy g) t2)) /\
     (Z.testbit (occupancy g) t = true ->
      Z.testbit m t = false /\ Z.testbit m t2 = false)) /\
  (forall b m0,
     get_pawn_moves g b c = Some m0 ->
     Z.testbit (occupancy g) t = true ->
     exists m, get_pawn_moves g (Z.lor b (bit s)) c = Some m /\
               Z.testbit m t = Z.testbit m0 t /\ Z.testbit m t2 = Z.testbit m0 t2).
Proof.
  intros Hs Hrow t t2.
  destruct (start_row_on_board c s Hs Hrow) as [Ht Ht2]. fold t in Ht. fold t t2 in Ht2.
  assert (Hfwd : get_pawn_direction c = -8 \/ get_pawn_direction c = 8)
    by (destruct c; auto).
  assert (Hblocked : Z.testbit (occupancy g) t = true ->
                     ~ pawn_reach g c s t /\ ~ pawn_reach g c s t2).
  { intros Hocc. subst t t2. pawn_unfold.
    split; intros [(H1 & H2)|[(H1 & _ & H2 & _)|[(H & _)|(H & _)]]];
      try lia; congruence. }
  split; [|split].
  - intros b m Hb Hm Hocc. split.
    + apply (get_pawn_moves_bits g b c m Hm). exists s.
      split; [exact Hs|]. split; [exact Hb|]. left. split; [reflexivity | exact Hocc].
    + intros Hocc2. apply (get_pawn_moves_bits g b c m Hm). exists s.
      split; [exact Hs|]. split; [exact Hb|]. right. left.
      subst t t2. repeat split; auto. lia.
  - destruct (get_pawn_moves_single g c s Hs Ht) as (m & Hm & Hbits).
    exists m. split; [exact Hm|]. split; intros Hocc.
    + split.
      * apply Hbits. left. split; [reflexivity | exact Hocc].
      * apply eq_true_iff_eq. rewrite Hbits, negb_true_iff.
        subst t t2. pawn_unfold. split.
        -- intros [(H & _)|[(_ & _ & _ & H)|[(H & _)|(H & _)]]]; try lia. exact H.
        -- intros H. right. left. repeat split; auto. lia.
    + destruct (Hblocked Hocc) as [H1 H2].
      split; apply not_true_is_false; rewrite Hbits; assumption.
  - intros b m0 Hm0 Hocc. destruct (Hblocked Hocc) as [H1 H2].
    destruct (get_pawn_moves_add_defined g c b m0 s Hs Ht Hm0) as [m Hm].
    exists m. split; [exact Hm|].
    split; apply (get_pawn_moves_add_unreached g c b m0 m s); assumption.
Qed.

(** The white pawn on 52 of [sample_game]: 44 and 36 are vacant. *)
Lemma pawn_start_row_pushes_witness :
  exists m, get_pawn_moves sample_game (bit 52) color.white = Some m /\
            Z.testbit m 44 = true /\ Z.testbit m 36 = true.
Proof.
  destruct (pawn_start_row_pushes sample_game color.white 52
              ltac:(lia) ltac:(reflexivity)) as [_ [(m & Hm & Hvac & _) _]].
  exists m. split; [exact Hm|].
  destruct (Hvac ltac:(reflexivity)) as [H1 H2]. split; [exact H1 | exact H2].
Defined.

(** C4: a pawn that is not on the edge column of a capture direction.  Its
    diagonal square in that direction is set when the square is occupied, by
    either colour, or is the en-passant target; a vacant diagonal square that
    is not the en-passant target is not set by this pawn: alone the pawn sets
    the square in those two cases only, and joining any other mask it leaves
    the square as it is. *)
Theorem pawn_capture_or_en_passant (g : game) (c : color.t) (s dir : square) :
  0 <= s < 64 ->
  0 <= s + get_pawn_direction c < 64 ->
  dir = left \/ dir = right ->
  get_col s <> capture_edge dir ->
  let sq := s + get_pawn_direction c + dir in
  (forall b m,
     Z.testbit b s = true -> get_pawn_moves g b c = Some m ->
     Z.testbit (occupancy g) sq = true \/ en_passant g = Some sq ->
     Z.testbit m sq = true) /\
  (exists m,
     get_pawn_moves g (bit s) c = Some m /\
     (Z.testbit m sq = true <->
      Z.testbit (occupancy g) sq = true \/ en_passant g = Some sq)) /\
  (forall b m0,
     get_pawn_moves g b c = Some m0 ->
     Z.testbit (occupancy g) sq = false -> en_passant g <> Some sq ->
     exists m, get_pawn_moves g (Z.lor b (bit s)) c = Some m /\
               Z.testbit m sq = Z.testbit m0 sq).
Proof.
  intros Hs Ht Hdir Hcol sq.
  assert (Hfwd : get_pawn_direction c = -8 \/ get_pawn_direction c = 8)
    by (destruct c; auto).
  assert (Hcap : Z.testbit (occupancy g) sq = true \/ en_passant g = Some sq ->
                 pawn_reach g c s sq).
  { intros H. unfold pawn_reach.
    destruct Hdir as [-> | ->]; [right; right; left | right; right; right];
      (split; [reflexivity | split; [exact Hcol | exact H]]). }
  assert (Honly : pawn_reach g c s sq ->
                  Z.testbit (occupancy g) sq = true \/ en_passant g = Some sq).
  { subst sq. destruct Hdir as [-> | ->]; pawn_unfold;
      intros [(H1 & _)|[(H1 & _)|[(H1 & _ & H2)|(H1 & _ & H2)]]];
      try lia; exact H2. }
  split; [|split].
  - intros b m Hb Hm H. apply (get_pawn_moves_bits g b c m Hm). exists s. auto.
  - destruct (get_pawn_moves_single g c s Hs Ht) as (m & Hm & Hbits).
    exists m. split; [exact Hm|]. rewrite Hbits. split; assumption.
  - intros b m0 Hm0 Hvac Hep.
    destruct (get_pawn_moves_add_defined g c b m0 s Hs Ht Hm0) as [m Hm].
    exists m. split; [exact Hm|].
    apply (get_pawn_moves_add_unreached g c b m0 m s); try assumption.
    intros H. destruct (Honly H) as [H'|H']; congruence.
Qed.

(** The white pawn on 52 of [sample_game]: its right diagonal square 45 is
    vacant and is the en-passant target. *)
Lemma pawn_capture_or_en_passant_witness :
  exists m, get_pawn_moves sample_game (bit 52) color.white = Some m /\
            Z.testbit (occupancy sample_game) 45 = false /\ Z.testbit m 45 = true.
Proof.
  destruct (pawn_capture_or_en_passant sample_game color.white 52 right
              ltac:(lia) ltac:(vm_compute; intuition discriminate)
              ltac:(right; reflexivity) ltac:(vm_compute; discriminate))
    as [_ [(m & Hm & Hiff) _]].
  exists m. split; [exact Hm|]. split; [reflexivity|].
  apply Hiff. right. reflexivity.
Defined.

Lemma get_col_shift (s q r : Z) :
  0 <= s < 64 -> 0 <= get_col s + r < 8 -> 0 <= q ->
  (q = s - 8 + r \/ q = s + 8 + r) ->
  get_col q = get_col s + r.
Proof.
  intros Hs Hr Hq Heq. destruct (row_col s Hs) as (_ & _ & Hrc).
  unfold get_col at 1. rewrite Z.rem_mod_nonneg by lia. symmetry.
  destruct Heq as [-> | ->].
  - apply (Z.mod_unique_pos _ _ (get_row s - 1)); lia.
  - apply (Z.mod_unique_pos _ _ (get_row s + 1)); lia.
Qed.

(** C5: every square of the result is a push, a double push or a capture of
    a pawn of the mask, and a capture comes from a pawn that is not on the
    edge column of its direction and lands on the neighbouring file; a pawn
    on column 0 never sets its left diagonal square, one on column 7 never
    its right diagonal square: alone it leaves that square clear, and joining
    any other mask it leaves the square as it is. *)
Theorem pawn_captures_clipped_at_edge (g : game) (b : bitboard) (c : color.t)
  (m : bitboard) :
  get_pawn_moves g b c = Some m ->
  (forall q, Z.testbit m q = true ->
     exists s, 0 <= s < 64 /\ Z.testbit b s = true /\
       (pawn_push g c s q \/ pawn_double_push g c s q \/
        (q = s + get_pawn_direction c + left /\ get_col s <> 0 /\
         get_col q = get_col s - 1) \/
        (q = s + get_pawn_direction c + right /\ get_col s <> 7 /\
         get_col q = get_col s + 1))) /\
  (forall s, 0 <= s < 64 -> b = bit s ->
     (get_col s = 0 -> Z.testbit m (s + get_pawn_direction c + left) = false) /\
     (get_col s = 7 -> Z.testbit m (s + get_pawn_direction c + right) = false)) /\
  (forall s m', 0 <= s < 64 ->
     get_pawn_moves g (Z.lor b (bit s)) c = Some m' ->
     (get_col s = 0 ->
      Z.testbit m' (s + get_pawn_direction c + left)
      = Z.testbit m (s + get_pawn_direction c + left)) /\
     (get_col s = 7 ->
      Z.testbit m' (s + get_pawn_direction c + right)
      = Z.testbit m (s + get_pawn_direction c + right))).
Proof.
  intros Hm.
  assert (Hfwd : get_pawn_direction c = -8 \/ get_pawn_direction c = 8)
    by (destruct c; auto).
  assert (Hedge : forall s,
            (get_col s = 0 -> ~ pawn_reach g c s (s + get_pawn_direction c + left)) /\
            (get_col s = 7 -> ~ pawn_reach g c s (s + get_pawn_direction c + right))).
  { intros s. split; intros Hcol; pawn_unfold;
      intros [(H & _)|[(H & _)|[(H1 & H2 & _)|(H1 & H2 & _)]]]; lia. }
  split; [|split].
  - intros q Hq. apply (get_pawn_moves_bits g b c m Hm) in Hq.
    destruct Hq as (s & Hs & Hb & Hreach). exists s.
    split; [exact Hs|]. split; [exact Hb|].
    pose proof (get_pawn_moves_Some_inv g b c m Hm s Hs Hb) as Ht.
    destruct (row_col s Hs) as (Hr & Hc & Hrc).
    destruct Hreach as [H|[H|[(H1 & H2 & _)|(H1 & H2 & _)]]]; [auto | auto | |].
    + right. right. left. pawn_unfold. split; [exact H1|]. split; [exact H2|].
      apply (get_col_shift s q (-1)); lia.
    + right. right. right. pawn_unfold. split; [exact H1|]. split; [exact H2|].
      apply (get_col_shift s q 1); lia.
  - intros s Hs ->. destruct (Hedge s) as [Hl Hr].
    split; intros Hcol; apply not_true_is_false; intros Hq;
      apply (get_pawn_moves_bits g _ c m Hm) in Hq;
      destruct Hq as (x & Hx & Hb & Hreach);
      (apply testbit_bit_true in Hb; [|lia]); subst x;
      [exact (Hl Hcol Hreach) | exact (Hr Hcol Hreach)].
  - intros s m' Hs Hm'. destruct (Hedge s) as [Hl Hr].
    split; intros Hcol;
      apply (get_pawn_moves_add_unreached g c b m m' s); auto.
Qed.

(** The white pawn on 48 (column 0) of [sample_game] does not reach 39, the
    square a left capture without the edge test would wrap to. *)
Lemma pawn_captures_clipped_at_edge_witness :
  exists m, get_pawn_moves sample_game (bit 48) color.white = Some m /\
            Z.testbit m 39 = false.
Proof.
  assert (Hm : exists m, get_pawn_moves sample_game (bit 48) color.white = Some m)
    by (eexists; vm_compute; reflexivity).
  destruct Hm as [m Hm]. exists m. split; [exact Hm|].
  destruct (pawn_captures_clipped_at_edge sample_game (bit 48) color.white m Hm)
    as [_ [Hedge _]].
  destruct (Hedge 48 ltac:(lia) eq_refl) as [Hleft _].
  exact (Hleft eq_refl).
Defined.

(** C6: the capture test is blind to the colour of the occupant.  The
    diagonal square of a pawn (not on the edge column of the direction) is
    set when a piece of the pawn's own colour stands on it, as it is for a
    piece of the other colour; and the whole result depends on the board
    only through the union of the two occupancy masks. *)
Theorem pawn_capture_ignores_colour (g : game) (c : color.t) (s dir : square)
  (b m : bitboard) :
  0 <= s < 64 ->
  dir = left \/ dir = right ->
  get_col s <> capture_edge dir ->
  Z.testbit b s = true ->
  get_pawn_moves g b c = Some m ->
  let sq := s + get_pawn_direction c + dir in
  (Z.testbit (pieces_of g c) sq = true -> Z.testbit m sq = true) /\
  (Z.testbit (pieces_of g (opposite c)) sq = true -> Z.testbit m sq = true) /\
  (forall g', occupancy g' = occupancy g -> en_passant g' = en_passant g ->
              get_pawn_moves g' b c = Some m).
Proof.
  intros Hs Hdir Hcol Hb Hm sq.
  assert (Hocc : Z.testbit (occupancy g) sq = true -> Z.testbit m sq = true).
  { intros H. apply (get_pawn_moves_bits g b c m Hm). exists s.
    split; [exact Hs|]. split; [exact Hb|]. unfold pawn_reach.
    destruct Hdir as [-> | ->]; [right; right; left | right; right; right];
      (split; [reflexivity | split; [exact Hcol | left; exact H]]). }
  split; [|split].
  - intros H. apply Hocc. now apply (occupancy_pieces g c).
  - intros H. apply Hocc. now apply (occupancy_pieces g (opposite c)).
  - intros g' Ho He. rewrite <- Hm. now apply get_pawn_moves_colour_blind.
Qed.

(** The white pawn on 52 of [sample_game] and the white piece on its left
    diagonal square 43. *)
Lemma pawn_capture_ignores_colour_witness :
  exists m, get_pawn_moves sample_game (bit 52) color.white = Some m /\
            Z.testbit (pieces_of sample_game color.white) 43 = true /\
            Z.testbit m 43 = true.
Proof.
  assert (Hm : exists m, get_pawn_moves sample_game (bit 52) color.white = Some m)
    by (eexists; vm_compute; reflexivity).
  destruct Hm as [m Hm]. exists m. split; [exact Hm|].
  destruct (pawn_capture_ignores_colour sample_game color.white 52 left (bit 52) m
              ltac:(lia) ltac:(left; reflexivity) ltac:(vm_compute; discriminate)
              ltac:(reflexivity) Hm) as [Hown _].
  split; [reflexivity | exact (Hown eq_refl)].
Defined.

(** * Further properties of the generators *)

(** ** Rows, columns and masks *)

Lemma row_col_unique (s i j : Z) :
  0 <= i < 8 -> 0 <= j < 8 -> s = 8 * i + j -> get_row s = i /\ get_col s = j.
Proof.
  intros Hi Hj ->. destruct (row_col (8 * i + j) ltac:(lia)) as (Hr & Hc & Hrc).
  lia.
Qed.

Lemma bounded_bits_bitboard (m : Z) :
  (forall q, Z.testbit m q = true -> 0 <= q < 64) -> is_bitboard m.
Proof.
  intros H. unfold is_bitboard.
  assert (H0 : 0 <= m).
  { apply Z.bits_iff_nonneg_ex. exists 64. intros q Hq.
    destruct (Z.testbit m q) eqn:E; [|reflexivity]. apply H in E. lia. }
  split; [exact H0|].
  destruct (Z.eq_dec m 0) as [->|Hnz]; [reflexivity|].
  apply Z.log2_lt_pow2; [lia|].
  assert (Hb : Z.testbit m (Z.log2 m) = true) by (apply Z.bit_log2; lia).
  apply H in Hb. lia.
Qed.

Lemma bitboard_bits (m : bitboard) (q : Z) :
  is_bitboard m -> Z.testbit m q = true -> 0 <= q < 64.
Proof.
  intros Hm Hq. destruct (Z.lt_ge_cases q 0) as [Hneg|Hpos].
  - rewrite Z.testbit_neg_r in Hq by exact Hneg. discriminate.
  - destruct (Z.lt_ge_cases q 64) as [Hlt|Hge]; [lia|].
    rewrite (testbit_high m q Hm Hge) in Hq. discriminate.
Qed.

(** ** Offset tables, by evaluation *)

Lemma table_matches_bits (t : list bitboard) (rel : square -> square -> bool) :
  table_matches t rel = true ->
  forall s, 0 <= s < 64 ->
  exists e, array_get t s = Some e /\ is_bitboard e /\
            forall q, Z.testbit e q = true <-> 0 <= q < 64 /\ rel s q = true.
Proof.
  intros H s Hs. pose proof (forall_squares _ H s Hs) as Hs'. cbv beta in Hs'.
  destruct (array_get t s) as [e|]; [|discriminate]. exists e. split; [reflexivity|].
  apply andb_true_iff in Hs'. destruct Hs' as [Hrange Hbits].
  assert (He : is_bitboard e) by (unfold is_bitboard; lia).
  split; [exact He|]. intros q. split.
  - intros Hq. pose proof (bitboard_bits e q He Hq) as Hin. split; [exact Hin|].
    pose proof (forall_squares _ Hbits q Hin) as Hqb. cbv beta in Hqb.
    apply Bool.eqb_prop in Hqb. congruence.
  - intros [Hin Hrel].
    pose proof (forall_squares _ Hbits q Hin) as Hqb. cbv beta in Hqb.
    apply Bool.eqb_prop in Hqb. congruence.
Qed.

Lemma table_generator_bits (t : list bitboard) (rel : square -> square -> bool)
  (b : bitboard) :
  table_matches t rel = true ->
  exists m, foldM (guarded (array_get t) b) squares 0 = Some m /\
            forall q, Z.testbit m q = true <->
                      exists s, 0 <= s < 64 /\ Z.testbit b s = true /\
                                0 <= q < 64 /\ rel s q = true.
Proof.
  intros H. destruct (scan_defined (array_get t) b 0) as [m Hm].
  { intros s Hs _. destruct (table_matches_bits t rel H s Hs) as (e & He & _). eauto. }
  exists m. split; [exact Hm|]. intros q.
  rewrite (scan_bits (array_get t) b m Hm q). split.
  - intros (s & e & Hs & Hb & He & Hq). exists s. split; [exact Hs|]. split; [exact Hb|].
    destruct (table_matches_bits t rel H s Hs) as (e' & He' & _ & Hbits).
    apply Hbits. congruence.
  - intros (s & Hs & Hb & Hq).
    destruct (table_matches_bits t rel H s Hs) as (e & He & _ & Hbits).
    exists s, e. repeat split; try lia; auto. now apply Hbits.
Qed.

Lemma knight_table_matches : table_matches knight_moves_table knight_jumpb = true.
Proof. vm_compute. reflexivity. Qed.

Lemma king_table_matches : table_matches king_moves_table king_stepb = true.
Proof. vm_compute. reflexivity. Qed.

Lemma pawn_table_matches : table_matches pawn_attacks_table besideb = true.
Proof. vm_compute. reflexivity. Qed.

Lemma knight_jumpb_iff (s q : square) :
  0 <= q < 64 /\ knight_jumpb s q = true <-> knight_jump s q.
Proof. unfold knight_jumpb, knight_jump. cbv zeta. lia. Qed.

Lemma king_stepb_iff (s q : square) :
  0 <= q < 64 /\ king_stepb s q = true <-> king_step s q.
Proof. unfold king_stepb, king_step. lia. Qed.

Lemma get_knight_moves_bits (g : game) (b : bitboard) :
  exists m, get_knight_moves g b = Some m /\
            forall q, Z.testbit m q = true <->
                      exists s, 0 <= s < 64 /\ Z.testbit b s = true /\ knight_jump s q.
Proof.
  destruct (table_generator_bits _ _ b knight_table_matches) as (m & Hm & Hbits).
  exists m. rewrite get_knight_moves_scan. split; [exact Hm|]. intros q.
  rewrite Hbits. split; intros (s & Hs & Hb & H); exists s;
    (split; [exact Hs|]; split; [exact Hb|]).
  - now apply knight_jumpb_iff.
  - now apply knight_jumpb_iff in H.
Qed.

Lemma get_king_moves_bits (g : game) (b : bitboard) :
  exists m, get_king_moves g b = Some m /\
            forall q, Z.testbit m q = true <->
                      exists s, 0 <= s < 64 /\ Z.testbit b s = true /\ king_step s q.
Proof.
  destruct (table_generator_bits _ _ b king_table_matches) as (m & Hm & Hbits).
  exists m. rewrite get_king_moves_scan. split; [exact Hm|]. intros q.
  rewrite Hbits. split; intros (s & Hs & Hb & H); exists s;
    (split; [exact Hs|]; split; [exact Hb|]).
  - now apply king_stepb_iff.
  - now apply king_stepb_iff in H.
Qed.

Lemma besideb_iff (s q : square) :
  besideb s q = true <->
  get_row q = get_row s /\ Z.abs (get_col q - get_col s) = 1.
Proof. unfold besideb. lia. Qed.

Lemma row_col_shift_rank (s : square) (k : Z) :
  0 <= s < 64 -> 0 <= s + 8 * k < 64 ->
  get_row (s + 8 * k) = get_row s + k /\ get_col (s + 8 * k) = get_col s.
Proof.
  intros Hs Hk. destruct (row_col s Hs) as (Hr & Hc & Hrc).
  apply row_col_unique; lia.
Qed.

Lemma get_pawn_attacks_bits (g : game) (b : bitboard) (c : color.t) :
  is_bitboard b ->
  exists m, get_pawn_attacks g b c = Some m /\
            forall q, Z.testbit m q = true <->
                      exists s, 0 <= s < 64 /\ Z.testbit b s = true /\
                                pawn_attack_from c s q.
Proof.
  intros Hbb. rewrite get_pawn_attacks_scan.
  destruct (table_generator_bits _ _
              (if color.eqb c color.white then shl64 b 8 else Z.shiftr b 8)
              pawn_table_matches) as (m & Hm & Hbits).
  exists m. split; [exact Hm|]. intros q. rewrite Hbits. clear Hm Hbits.
  unfold pawn_attack_from. destruct c; cbn [color.eqb attack_row_step].
  - split.
    + intros (s' & Hs' & Hb & Hq & Hrel). rewrite testbit_shl64 in Hb by exact Hs'.
      assert (Hs : 0 <= s' - 8 < 64).
      { destruct (Z.lt_ge_cases (s' - 8) 0) as [Hneg|Hpos]; [|lia].
        rewrite Z.testbit_neg_r in Hb by exact Hneg. discriminate. }
      exists (s' - 8). split; [exact Hs|]. split; [exact Hb|]. split; [exact Hq|].
      apply besideb_iff in Hrel.
      destruct (row_col_shift_rank (s' - 8) 1 Hs ltac:(lia)) as [Hr Hc].
      replace (s' - 8 + 8 * 1) with s' in * by lia. lia.
    + intros (s & Hs & Hb & Hq & Hrow & Hcol).
      destruct (row_col s Hs) as (Hr & Hc & Hrc).
      destruct (row_col q Hq) as (Hrq & _ & _).
      assert (Hs' : 0 <= s + 8 * 1 < 64) by lia.
      destruct (row_col_shift_rank s 1 Hs Hs') as [Hr' Hc'].
      exists (s + 8 * 1). split; [exact Hs'|]. rewrite testbit_shl64 by exact Hs'.
      replace (s + 8 * 1 - 8) with s by lia. split; [exact Hb|]. split; [exact Hq|].
      apply besideb_iff. lia.
  - split.
    + intros (s' & Hs' & Hb & Hq & Hrel). rewrite Z.shiftr_spec in Hb by lia.
      assert (Hs : 0 <= s' + 8 < 64) by (apply (bitboard_bits b); assumption).
      exists (s' + 8). split; [exact Hs|]. split; [exact Hb|]. split; [exact Hq|].
      apply besideb_iff in Hrel.
      destruct (row_col_shift_rank (s' + 8) (-1) Hs ltac:(lia)) as [Hr Hc].
      replace (s' + 8 + 8 * -1) with s' in * by lia. lia.
    + intros (s & Hs & Hb & Hq & Hrow & Hcol).
      destruct (row_col s Hs) as (Hr & Hc & Hrc).
      destruct (row_col q Hq) as (Hrq & _ & _).
      assert (Hs' : 0 <= s + 8 * -1 < 64) by lia.
      destruct (row_col_shift_rank s (-1) Hs Hs') as [Hr' Hc'].
      exists (s + 8 * -1). split; [exact Hs'|]. rewrite Z.shiftr_spec by lia.
      replace (s + 8 * -1 + 8) with s by lia. split; [exact Hb|]. split; [exact Hq|].
      apply besideb_iff. lia.
Qed.

(** ** Construction of an offset table *)










(** ** Results as 64-bit masks *)

Lemma scan_bitboard (f : square -> option bitboard) (b m : bitboard) :
  (forall s c, 0 <= s < 64 -> f s = Some c -> is_bitboard c) ->
  foldM (guarded f b) squares 0 = Some m -> is_bitboard m.
Proof.
  intros Hf Hm. apply bounded_bits_bitboard. intros q Hq.
  apply (scan_bits f b m Hm) in Hq. destruct Hq as (s & c & Hs & _ & Hc & Hq).
  apply (bitboard_bits c q); [apply (Hf s c Hs Hc) | exact Hq].
Qed.

Lemma is_bitboard_0 : is_bitboard 0.
Proof. unfold is_bitboard. lia. Qed.

Lemma pawn_from_bitboard (g : game) (vacant pd sr : Z) (s : square) (c : bitboard) :
  pawn_from g vacant pd sr 0 s = Some c -> is_bitboard c.
Proof.
  unfold pawn_from, add_capture, test_bit, set_bit.
  repeat (match goal with
          | |- context [if ?b then _ else _] => destruct b eqn:?
          end; cbn [bind negb orb]);
    intros H; try discriminate; apply Some_inj in H; subst c;
    repeat apply is_bitboard_lor;
    solve [ apply is_bitboard_0
          | apply is_bitboard_bit; apply in_board_iff; assumption ].
Qed.

Lemma array_get_bitboard (t : list bitboard) (rel : square -> square -> bool)
  (s : square) (e : bitboard) :
  table_matches t rel = true -> 0 <= s < 64 -> array_get t s = Some e ->
  is_bitboard e.
Proof.
  intros H Hs He. destruct (table_matches_bits t rel H s Hs) as (e' & He' & Hbb & _).
  congruence.
Qed.

Lemma slide_from_bitboard (dirs : list (Z * Z)) (occ : Z) (s : square) (c : bitboard) :
  slide_from dirs occ 0 s = Some c -> is_bitboard c.
Proof.
  intros H. apply bounded_bits_bitboard. intros q Hq.
  apply (slide_from_bits dirs occ s c H) in Hq.
  destruct Hq as (d & n & _ & (Hn & Hv & _) & ->).
  destruct (Hv n ltac:(lia)) as [Hr Hc]. unfold ray_square. lia.
Qed.

(** * Offsets and offset tables *)




(** * Short range pieces *)

(** X3: a square is in the result of [get_knight_moves] exactly when it is
    on the board and a knight's jump (one row and two columns, or two rows
    and one column) away from a square of the source mask; a jump never
    wraps around an edge. *)
Theorem knight_moves_geometry (g : game) (b : bitboard) :
  exists m, get_knight_moves g b = Some m /\
            forall q, Z.testbit m q = true <->
                      exists s, 0 <= s < 64 /\ Z.testbit b s = true /\ knight_jump s q.
Proof. exact (get_knight_moves_bits g b). Qed.

(** X4: a square is in the result of [get_king_moves] exactly when it is on
    the board, differs from and is at most one row and one column away from
    a square of the source mask. *)
Theorem king_moves_geometry (g : game) (b : bitboard) :
  exists m, get_king_moves g b = Some m /\
            forall q, Z.testbit m q = true <->
                      exists s, 0 <= s < 64 /\ Z.testbit b s = true /\ king_step s q.
Proof. exact (get_king_moves_bits g b). Qed.

(** X6: the knight and king relations are symmetric: the square [q] is in
    the result for the single source [s] exactly when [s] is in the result
    for the single source [q]. *)
Theorem short_range_symmetric (g : game) (s q : square) :
  0 <= s < 64 -> 0 <= q < 64 ->
  (exists ms mq, get_knight_moves g (bit s) = Some ms /\
                 get_knight_moves g (bit q) = Some mq /\
                 Z.testbit ms q = Z.testbit mq s) /\
  (exists ms mq, get_king_moves g (bit s) = Some ms /\
                 get_king_moves g (bit q) = Some mq /\
                 Z.testbit ms q = Z.testbit mq s).
Proof.
  intros Hs Hq. split.
  - destruct (get_knight_moves_bits g (bit s)) as (ms & Hms & Bs).
    destruct (get_knight_moves_bits g (bit q)) as (mq & Hmq & Bq).
    exists ms, mq. split; [exact Hms|]. split; [exact Hmq|].
    apply eq_true_iff_eq. rewrite Bs, Bq. unfold knight_jump. split.
    + intros (x & Hx & Hb & H). apply testbit_bit_true in Hb; [|lia]. subst x.
      exists q. split; [exact Hq|]. split; [apply testbit_bit_true; lia|]. lia.
    + intros (x & Hx & Hb & H). apply testbit_bit_true in Hb; [|lia]. subst x.
      exists s. split; [exact Hs|]. split; [apply testbit_bit_true; lia|]. lia.
  - destruct (get_king_moves_bits g (bit s)) as (ms & Hms & Bs).
    destruct (get_king_moves_bits g (bit q)) as (mq & Hmq & Bq).
    exists ms, mq. split; [exact Hms|]. split; [exact Hmq|].
    apply eq_true_iff_eq. rewrite Bs, Bq. unfold king_step. split.
    + intros (x & Hx & Hb & H). apply testbit_bit_true in Hb; [|lia]. subst x.
      exists q. split; [exact Hq|]. split; [apply testbit_bit_true; lia|]. lia.
    + intros (x & Hx & Hb & H). apply testbit_bit_true in Hb; [|lia]. subst x.
      exists s. split; [exact Hs|]. split; [apply testbit_bit_true; lia|]. lia.
Qed.

Lemma short_range_symmetric_witness :
  exists ms mq, get_knight_moves sample_game (bit 0) = Some ms /\
                get_knight_moves sample_game (bit 17) = Some mq /\
                Z.testbit ms 17 = Z.testbit mq 0.
Proof.
  exact (proj1 (short_range_symmetric sample_game 0 17 ltac:(lia) ltac:(lia))).
Defined.

(** X7: a knight on any square has between 2 and 8 squares to jump to, a king
    between 3 and 8 squares to step to. *)
Theorem short_range_counts (g : game) (s : square) :
  0 <= s < 64 ->
  (exists m, get_knight_moves g (bit s) = Some m /\
             (2 <= popcount m <= 8)%nat) /\
  (exists m, get_king_moves g (bit s) = Some m /\
             (3 <= popcount m <= 8)%nat).
Proof.
  intros Hs.
  assert (H : forallb (fun s =>
                match get_knight_moves g (bit s), get_king_moves g (bit s) with
                | Some n, Some k =>
                    (2 <=? popcount n)%nat && (popcount n <=? 8)%nat &&
                    (3 <=? popcount k)%nat && (popcount k <=? 8)%nat
                | _, _ => false
                end) squares = true) by (vm_compute; reflexivity).
  pose proof (forall_squares _ H s Hs) as H1. cbv beta in H1.
  destruct (get_knight_moves g (bit s)) as [n|]; [|discriminate].
  destruct (get_king_moves g (bit s)) as [k|]; [|discriminate].
  rewrite !andb_true_iff, !Nat.leb_le in H1.
  split; [exists n | exists k]; split; try reflexivity; lia.
Qed.

Lemma short_range_counts_witness :
  exists m, get_knight_moves sample_game (bit 0) = Some m /\
            (2 <= popcount m <= 8)%nat.
Proof.
  exact (proj1 (short_range_counts sample_game 0 ltac:(lia))).
Defined.

(** * All generators *)

(** X8: every result is a 64-bit mask: no generator sets a bit outside the
    squares 0..63, whatever the source mask. *)
Theorem results_are_bitboards (g : game) (b : bitboard) (c : color.t) :
  (forall m, get_pawn_moves g b c = Some m -> is_bitboard m) /\
  (forall m, get_pawn_attacks g b c = Some m -> is_bitboard m) /\
  (forall m, get_knight_moves g b = Some m -> is_bitboard m) /\
  (forall m, get_king_moves g b = Some m -> is_bitboard m) /\
  (forall m, get_bishop_moves g b = Some m -> is_bitboard m) /\
  (forall m, get_rook_moves g b = Some m -> is_bitboard m) /\
  (forall m, get_queen_moves g b = Some m -> is_bitboard m).
Proof.
  assert (Hb : forall m, get_bishop_moves g b = Some m -> is_bitboard m).
  { intros m. rewrite get_bishop_moves_scan. apply scan_bitboard.
    intros s e _. apply slide_from_bitboard. }
  assert (Hr : forall m, get_rook_moves g b = Some m -> is_bitboard m).
  { intros m. rewrite get_rook_moves_scan. apply scan_bitboard.
    intros s e _. apply slide_from_bitboard. }
  split; [|split; [|split; [|split; [|split; [exact Hb|split; [exact Hr|]]]]]].
  - intros m. rewrite get_pawn_moves_scan. apply scan_bitboard.
    intros s e _. apply pawn_from_bitboard.
  - intros m. rewrite get_pawn_attacks_scan. apply scan_bitboard.
    intros s e. apply (array_get_bitboard _ _ s e pawn_table_matches).
  - intros m. rewrite get_knight_moves_scan. apply scan_bitboard.
    intros s e. apply (array_get_bitboard _ _ s e knight_table_matches).
  - intros m. rewrite get_king_moves_scan. apply scan_bitboard.
    intros s e. apply (array_get_bitboard _ _ s e king_table_matches).
  - intros m Hm. unfold get_queen_moves in Hm.
    apply bind_Some in Hm. destruct Hm as (bm & Hbm & Hm).
    apply bind_Some in Hm. destruct Hm as (rm & Hrm & Hm).
    apply Some_inj in Hm. subst m.
    apply is_bitboard_lor; [exact (Hb bm Hbm) | exact (Hr rm Hrm)].
Qed.

(** * Sliding pieces *)

Lemma sliding_subset (dirs : list (Z * Z)) (occ occ' b m m' : bitboard) :
  (forall q, Z.testbit occ q = true -> Z.testbit occ' q = true) ->
  foldM (guarded (slide_from dirs occ 0) b) squares 0 = Some m ->
  foldM (guarded (slide_from dirs occ' 0) b) squares 0 = Some m' ->
  forall q, Z.testbit m' q = true -> Z.testbit m q = true.
Proof.
  intros Hsub Hm Hm' q Hq.
  apply (sliding_bits dirs occ' b m' Hm') in Hq.
  destruct Hq as (s & d & n & Hs & Hb & Hd & (Hn & Hv & Hfree) & ->).
  apply (sliding_bits dirs occ b m Hm). exists s, d, n.
  split; [exact Hs|]. split; [exact Hb|]. split; [exact Hd|]. split; [|reflexivity].
  split; [exact Hn|]. split; [exact Hv|].
  intros k Hk. specialize (Hfree k Hk).
  destruct (Z.testbit occ (ray_square s d k)) eqn:E; [|reflexivity].
  apply Hsub in E. congruence.
Qed.

(** X9: pieces added to the board only remove squares from the results of
    the sliding generators: when every square occupied on the board of [g]
    is occupied on the board of [g'], each result on [g'] is contained in
    the result on [g] for the same source mask. *)
Theorem sliding_blockers_only_remove (g g' : game) (b : bitboard) :
  (forall q, Z.testbit (occupancy g) q = true -> Z.testbit (occupancy g') q = true) ->
  (forall m m', get_bishop_moves g b = Some m -> get_bishop_moves g' b = Some m' ->
                forall q, Z.testbit m' q = true -> Z.testbit m q = true) /\
  (forall m m', get_rook_moves g b = Some m -> get_rook_moves g' b = Some m' ->
                forall q, Z.testbit m' q = true -> Z.testbit m q = true) /\
  (forall m m', get_queen_moves g b = Some m -> get_queen_moves g' b = Some m' ->
                forall q, Z.testbit m' q = true -> Z.testbit m q = true).
Proof.
  intros Hsub.
  assert (Hb : forall m m', get_bishop_moves g b = Some m ->
                 get_bishop_moves g' b = Some m' ->
                 forall q, Z.testbit m' q = true -> Z.testbit m q = true).
  { intros m m'. rewrite (get_bishop_moves_scan g b), (get_bishop_moves_scan g' b).
    now apply sliding_subset. }
  assert (Hr : forall m m', get_rook_moves g b = Some m ->
                 get_rook_moves g' b = Some m' ->
                 forall q, Z.testbit m' q = true -> Z.testbit m q = true).
  { intros m m'. rewrite (get_rook_moves_scan g b), (get_rook_moves_scan g' b).
    now apply sliding_subset. }
  split; [exact Hb|]. split; [exact Hr|].
  intros m m' Hm Hm' q. unfold get_queen_moves in Hm, Hm'.
  apply bind_Some in Hm. destruct Hm as (bm & Hbm & Hm).
  apply bind_Some in Hm. destruct Hm as (rm & Hrm & Hm).
  apply bind_Some in Hm'. destruct Hm' as (bm' & Hbm' & Hm').
  apply bind_Some in Hm'. destruct Hm' as (rm' & Hrm' & Hm').
  apply Some_inj in Hm, Hm'. subst m m'.
  rewrite !Z.lor_spec, !orb_true_iff.
  intros [H|H]; [left; apply (Hb bm bm' Hbm Hbm' q H)
                | right; apply (Hr rm rm' Hrm Hrm' q H)].
Qed.

(** The rook on 27: the square 35 it reaches on [sample_game] it reaches on
    the empty board. *)
Lemma sliding_blockers_only_remove_witness :
  exists m m', get_rook_moves empty_game (bit 27) = Some m /\
               get_rook_moves sample_game (bit 27) = Some m' /\
               Z.testbit m 35 = true.
Proof.
  assert (Hm : exists m, get_rook_moves empty_game (bit 27) = Some m)
    by (eexists; vm_compute; reflexivity).
  assert (Hm' : exists m', get_rook_moves sample_game (bit 27) = Some m' /\
                           Z.testbit m' 35 = true)
    by (eexists; split; [vm_compute; reflexivity | reflexivity]).
  destruct Hm as [m Hm]. destruct Hm' as (m' & Hm' & Hq).
  exists m, m'. split; [exact Hm|]. split; [exact Hm'|].
  destruct (sliding_blockers_only_remove empty_game sample_game (bit 27)) as (_ & Hr & _).
  - intros q. change (occupancy empty_game) with 0. rewrite Z.bits_0. discriminate.
  - exact (Hr m m' Hm Hm' 35 Hq).
Defined.

Lemma ray_square_row_col (s : square) (d : Z * Z) (n : Z) :
  ray_on_board s d n ->
  0 <= ray_square s d n < 64 /\
  get_row (ray_square s d n) = get_row s + n * fst d /\
  get_col (ray_square s d n) = get_col s + n * snd d.
Proof.
  unfold ray_on_board, ray_square. intros [Hr Hc].
  split; [lia|]. now apply row_col_unique.
Qed.

(** X10: whatever the board, a square of the rook's result is on the board
    and shares its row or its column with a source square other than
    itself; a square of the bishop's result is on the board and as many rows
    as columns (at least one) away from a source square. *)
Theorem sliding_lines (g : game) (b m : bitboard) (q : square) :
  Z.testbit m q = true ->
  (get_rook_moves g b = Some m ->
   exists s, 0 <= s < 64 /\ Z.testbit b s = true /\ 0 <= q < 64 /\ q <> s /\
             (get_row q = get_row s \/ get_col q = get_col s)) /\
  (get_bishop_moves g b = Some m ->
   exists s, 0 <= s < 64 /\ Z.testbit b s = true /\ 0 <= q < 64 /\
             1 <= Z.abs (get_row q - get_row s) /\
             Z.abs (get_row q - get_row s) = Z.abs (get_col q - get_col s)).
Proof.
  intros Hq. split; intros Hm.
  - rewrite get_rook_moves_scan in Hm.
    apply (sliding_bits _ _ _ _ Hm) in Hq.
    destruct Hq as (s & d & n & Hs & Hb & Hd & (Hn & Hv & _) & ->).
    destruct (ray_square_row_col s d n (Hv n ltac:(lia))) as (Hin & Hr & Hc).
    destruct (row_col s Hs) as (_ & _ & Hrc).
    exists s. split; [exact Hs|]. split; [exact Hb|]. split; [exact Hin|].
    unfold rook_dirs in Hd.
    destruct Hd as [<-|[<-|[<-|[<-|[]]]]]; cbn [fst snd] in *;
      (split; [intros E; rewrite E in Hr, Hc; lia | lia]).
  - rewrite get_bishop_moves_scan in Hm.
    apply (sliding_bits _ _ _ _ Hm) in Hq.
    destruct Hq as (s & d & n & Hs & Hb & Hd & (Hn & Hv & _) & ->).
    destruct (ray_square_row_col s d n (Hv n ltac:(lia))) as (Hin & Hr & Hc).
    exists s. split; [exact Hs|]. split; [exact Hb|]. split; [exact Hin|].
    unfold bishop_dirs in Hd.
    destruct Hd as [<-|[<-|[<-|[<-|[]]]]]; cbn [fst snd] in *; lia.
Qed.

Lemma sliding_lines_witness :
  exists s, 0 <= s < 64 /\ Z.testbit (bit 27) s = true /\ 0 <= 35 < 64 /\ 35 <> s /\
            (get_row 35 = get_row s \/ get_col 35 = get_col s).
Proof.
  assert (Hm : exists m, get_rook_moves sample_game (bit 27) = Some m /\
                         Z.testbit m 35 = true)
    by (eexists; split; [vm_compute; reflexivity | reflexivity]).
  destruct Hm as (m & Hm & Hq).
  exact (proj1 (sliding_lines sample_game (bit 27) m 35 Hq) Hm).
Defined.

(** X11: the first square of each ray is always in the result, occupied or
    not: for a source square [s] of the mask and a direction of the piece,
    the neighbouring square in that direction is set whenever it is on the
    board. *)
Theorem sliding_neighbour_always_set (g : game) (b : bitboard) (s : square)
  (d : Z * Z) :
  0 <= s < 64 -> Z.testbit b s = true -> ray_on_board s d 1 ->
  (In d bishop_dirs ->
   exists m, get_bishop_moves g b = Some m /\
             Z.testbit m (ray_square s d 1) = true) /\
  (In d rook_dirs ->
   exists m, get_rook_moves g b = Some m /\
             Z.testbit m (ray_square s d 1) = true).
Proof.
  intros Hs Hb Hon.
  assert (Hv : forall occ, ray_visited occ s d 1).
  { intros occ. split; [lia|]. split.
    - intros k Hk. assert (k = 1) as -> by lia. exact Hon.
    - intros k Hk. lia. }
  split; intros Hd.
  - destruct (get_bishop_moves_total g b) as [m Hm]. exists m. split; [exact Hm|].
    rewrite get_bishop_moves_scan in Hm. apply (sliding_bits _ _ _ _ Hm).
    exists s, d, 1. auto.
  - destruct (get_rook_moves_total g b) as [m Hm]. exists m. split; [exact Hm|].
    rewrite get_rook_moves_scan in Hm. apply (sliding_bits _ _ _ _ Hm).
    exists s, d, 1. auto.
Qed.

(** The rook on 59 of [sample_game] and the square 51 above it. *)
Lemma sliding_neighbour_always_set_witness :
  exists m, get_rook_moves sample_game (bit 59) = Some m /\
            Z.testbit m (ray_square 59 (-1, 0) 1) = true.
Proof.
  apply (sliding_neighbour_always_set sample_game (bit 59) 59 (-1, 0)).
  - lia.
  - reflexivity.
  - vm_compute. intuition discriminate.
  - right. left. reflexivity.
Defined.

Lemma sliding_occupancy_only (g g' : game) (b : bitboard) :
  occupancy g = occupancy g' ->
  get_bishop_moves g b = get_bishop_moves g' b /\
  get_rook_moves g b = get_rook_moves g' b.
Proof.
  intros H. unfold get_bishop_moves, get_rook_moves.
  change (Z.lor (black (board g)) (white (board g))) with (occupancy g).
  change (Z.lor (black (board g')) (white (board g'))) with (occupancy g').
  rewrite H. split; reflexivity.
Qed.

(** X12: on a board without pieces a rook reaches exactly 14 squares from
    every square, and a bishop between 7 and 13. *)
Theorem sliding_on_empty_board (g : game) (s : square) :
  occupancy g = 0 -> 0 <= s < 64 ->
  (exists m, get_rook_moves g (bit s) = Some m /\ popcount m = 14%nat) /\
  (exists m, get_bishop_moves g (bit s) = Some m /\ (7 <= popcount m <= 13)%nat).
Proof.
  intros Hocc Hs.
  destruct (sliding_occupancy_only g empty_game (bit s) Hocc) as [Hb Hr].
  rewrite Hb, Hr.
  assert (H : forallb (fun s =>
                match get_rook_moves empty_game (bit s),
                      get_bishop_moves empty_game (bit s) with
                | Some r, Some d =>
                    (popcount r =? 14)%nat &&
                    (7 <=? popcount d)%nat && (popcount d <=? 13)%nat
                | _, _ => false
                end) squares = true) by (vm_compute; reflexivity).
  pose proof (forall_squares _ H s Hs) as H1. cbv beta in H1.
  destruct (get_rook_moves empty_game (bit s)) as [r|]; [|discriminate].
  destruct (get_bishop_moves empty_game (bit s)) as [d|]; [|discriminate].
  rewrite !andb_true_iff, !Nat.leb_le, Nat.eqb_eq in H1.
  split; [exists r | exists d]; split; try reflexivity; lia.
Qed.

Lemma sliding_on_empty_board_witness :
  exists m, get_rook_moves empty_game (bit 0) = Some m /\ popcount m = 14%nat.
Proof.
  exact (proj1 (sliding_on_empty_board empty_game 0 eq_refl ltac:(lia))).
Defined.

(** * Pawn moves *)

Lemma last_row_iff (c : color.t) (s : square) :
  0 <= s < 64 ->
  (0 <= s + get_pawn_direction c < 64 <-> get_row s <> last_row c).
Proof.
  intros Hs. destruct (row_col s Hs) as (Hr & Hc & Hrc).
  destruct c; cbn [get_pawn_direction last_row]; unfold up, down; lia.
Qed.

(** X13: [get_pawn_moves] has a defined result exactly on the masks without
    a pawn on the last row of the colour (row 0 for white, row 7 for black);
    for a pawn on that row the push test reads a bit outside the mask. *)
Theorem pawn_moves_defined_iff (g : game) (b : bitboard) (c : color.t) :
  (exists m, get_pawn_moves g b c = Some m) <->
  (forall s, 0 <= s < 64 -> Z.testbit b s = true -> get_row s <> last_row c).
Proof.
  split.
  - intros [m Hm] s Hs Hb. apply (last_row_iff c s Hs).
    apply (get_pawn_moves_Some_inv g b c m Hm s Hs Hb).
  - intros H. apply get_pawn_moves_defined. intros s Hs Hb.
    apply (last_row_iff c s Hs). now apply H.
Qed.

(** X14: a square is in the result of [get_pawn_moves] exactly when some
    pawn of the mask reaches it: by a push onto a vacant square, by a double
    push from the starting row over a vacant square onto a vacant square, or
    by a capture onto a diagonal square that is occupied or is the
    en-passant target, from a pawn that is not on the edge column of that
    side. *)
Theorem pawn_moves_characterised (g : game) (b : bitboard) (c : color.t)
  (m : bitboard) :
  get_pawn_moves g b c = Some m ->
  forall q, Z.testbit m q = true <->
            exists s, 0 <= s < 64 /\ Z.testbit b s = true /\
              (pawn_push g c s q \/ pawn_double_push g c s q \/
               pawn_capture g c left s q \/ pawn_capture g c right s q).
Proof. exact (get_pawn_moves_bits g b c m). Qed.

Lemma pawn_moves_characterised_witness :
  exists m, get_pawn_moves sample_game (bit 52) color.white = Some m /\
            Z.testbit m 36 = true.
Proof.
  assert (Hm : exists m, get_pawn_moves sample_game (bit 52) color.white = Some m)
    by (eexists; vm_compute; reflexivity).
  destruct Hm as [m Hm]. exists m. split; [exact Hm|].
  apply (pawn_moves_characterised sample_game (bit 52) color.white m Hm).
  exists 52. split; [lia|]. split; [reflexivity|]. right. left.
  vm_compute. intuition discriminate.
Defined.

(** X15: a pawn that is not on the starting row of its colour makes no
    double push: alone it leaves the square two rows ahead clear, and
    joining any other mask it leaves that square as it is. *)
Theorem pawn_double_push_only_from_start_row (g : game) (c : color.t) (s : square) :
  0 <= s < 64 ->
  get_row s <> last_row c ->
  get_row s <> start_row_of c ->
  let t2 := s + 2 * get_pawn_direction c in
  (exists m, get_pawn_moves g (bit s) c = Some m /\ Z.testbit m t2 = false) /\
  (forall b m0,
     get_pawn_moves g b c = Some m0 ->
     exists m, get_pawn_moves g (Z.lor b (bit s)) c = Some m /\
               Z.testbit m t2 = Z.testbit m0 t2).
Proof.
  intros Hs Hlast Hstart t2.
  pose proof (proj2 (last_row_iff c s Hs) Hlast) as Ht.
  assert (Hfwd : get_pawn_direction c = -8 \/ get_pawn_direction c = 8)
    by (destruct c; auto).
  assert (Hno : ~ pawn_reach g c s t2).
  { subst t2. pawn_unfold.
    intros [(H & _)|[(_ & H & _)|[(H & _)|(H & _)]]]; try lia; contradiction. }
  split.
  - destruct (get_pawn_moves_single g c s Hs Ht) as (m & Hm & Hbits).
    exists m. split; [exact Hm|]. apply not_true_is_false. now rewrite Hbits.
  - intros b m0 Hm0.
    destruct (get_pawn_moves_add_defined g c b m0 s Hs Ht Hm0) as [m Hm].
    exists m. split; [exact Hm|].
    now apply (get_pawn_moves_add_unreached g c b m0 m s).
Qed.

(** The white pawn on 44 (row 5) does not reach 28. *)
Lemma pawn_double_push_only_from_start_row_witness :
  exists m, get_pawn_moves empty_game (bit 44) color.white = Some m /\
            Z.testbit m 28 = false.
Proof.
  exact (proj1 (pawn_double_push_only_from_start_row empty_game color.white 44
                  ltac:(lia) ltac:(vm_compute; discriminate)
                  ltac:(vm_compute; discriminate))).
Defined.



(** * Sliding pieces, any source mask *)

(** X18: a square is in the result of a sliding generator exactly when it is
    the [n]-th square of a ray that leaves a square of the source mask in one
    of the piece's directions, with the squares 1..n of the ray on the board
    and the squares 1..n-1 unoccupied; the queen takes the directions of
    both pieces. *)
Theorem sliding_characterised (g : game) (b : bitboard) :
  (exists m, get_bishop_moves g b = Some m /\
     forall q, Z.testbit m q = true <->
       exists s d n, 0 <= s < 64 /\ Z.testbit b s = true /\ In d bishop_dirs /\
                     ray_visited (occupancy g) s d n /\ q = ray_square s d n) /\
  (exists m, get_rook_moves g b = Some m /\
     forall q, Z.testbit m q = true <->
       exists s d n, 0 <= s < 64 /\ Z.testbit b s = true /\ In d rook_dirs /\
                     ray_visited (occupancy g) s d n /\ q = ray_square s d n) /\
  (exists m, get_queen_moves g b = Some m /\
     forall q, Z.testbit m q = true <->
       exists s d n, 0 <= s < 64 /\ Z.testbit b s = true /\
                     In d (bishop_dirs ++ rook_dirs) /\
                     ray_visited (occupancy g) s d n /\ q = ray_square s d n).
Proof.
  destruct (get_bishop_moves_total g b) as [bm Hbm].
  destruct (get_rook_moves_total g b) as [rm Hrm].
  pose proof Hbm as Hbs. rewrite get_bishop_moves_scan in Hbs.
  pose proof Hrm as Hrs. rewrite get_rook_moves_scan in Hrs.
  split; [|split].
  - exists bm. split; [exact Hbm|]. exact (sliding_bits _ _ _ _ Hbs).
  - exists rm. split; [exact Hrm|]. exact (sliding_bits _ _ _ _ Hrs).
  - exists (Z.lor bm rm). split.
    + unfold get_queen_moves. rewrite Hbm, bind_ret, Hrm. reflexivity.
    + intros q. rewrite Z.lor_spec, orb_true_iff.
      rewrite (sliding_bits _ _ _ _ Hbs q), (sliding_bits _ _ _ _ Hrs q). split.
      * intros [(s & d & n & Hs & Hb & Hd & H)|(s & d & n & Hs & Hb & Hd & H)];
          exists s, d, n; (split; [exact Hs|]; split; [exact Hb|]; split; [|exact H]);
          apply in_or_app; auto.
      * intros (s & d & n & Hs & Hb & Hd & H). apply in_app_or in Hd.
        destruct Hd as [Hd|Hd]; [left | right]; exists s, d, n; auto.
Qed.

(** * Pawn attacks and the numbering of the bits *)



Lemma get_pawn_attacks_at_lsb (g : game) (b : bitboard) (c : color.t) :
  get_pawn_attacks_at lsb_first g b c = get_pawn_attacks g b c.
Proof. reflexivity. Qed.

























